(** * oh-my-pi: the edit tool, the custom-API registry and Snowflake identifiers

    A shallow embedding of
    - [packages/utils/src/snowflake.ts]        (module [Snowflake]),
    - [packages/ai/src/api-registry.ts]        (module [ApiRegistry]),
    - [packages/coding-agent/src/core/tools/edit.ts] (module [Edit]),
    - the pure functions of the image generation tool (module [GeminiImage]),
    with the properties stated about them.

    JavaScript strings are sequences of code units; they are embedded as
    [string], whose characters play the role of code units.  BigInt values
    and integral Numbers are embedded as [Z]. *)

From Stdlib Require Import ZArith Lia List Ascii String Bool QArith DecimalString.
From stdpp Require Import gmap strings list fin_maps.

Local Open Scope string_scope.

(** ** Strings as the source uses them *)

Module Str.

(** [s.repeat(n)] for a one-character [s]. *)
Fixpoint replicate (n : nat) (c : ascii) : string :=
  match n with
  | O => EmptyString
  | S k => String c (replicate k c)
  end.

(** [s.padStart(n, c)] for a one-character filler [c]. *)
Definition padStart (n : nat) (c : ascii) (s : string) : string :=
  replicate (n - String.length s) c +:+ s.

(** [s.substring(0, n)], clamped at the end of [s]. *)
Fixpoint take (n : nat) (s : string) : string :=
  match n, s with
  | S k, String c s' => String c (take k s')
  | _, _ => EmptyString
  end.

(** [s.substring(n)], clamped at the end of [s]. *)
Fixpoint drop (n : nat) (s : string) : string :=
  match n, s with
  | S k, String _ s' => drop k s'
  | _, _ => s
  end.

(** [s.endsWith(suffix)]. *)
Definition endsWith (s suffix : string) : bool :=
  String.eqb (drop (String.length s - String.length suffix) s) suffix.

(** [s.startsWith(p)]. *)
Definition startsWith (s p : string) : bool := String.prefix p s.

(** [String.prototype.every]-style test on the characters. *)
Fixpoint forallb (p : ascii -> bool) (s : string) : bool :=
  match s with
  | EmptyString => true
  | String c s' => p c && forallb p s'
  end.

Lemma app_nil_l (s : string) : "" +:+ s = s.
Proof. reflexivity. Qed.

Lemma app_cons c (s t : string) : String c s +:+ t = String c (s +:+ t).
Proof. reflexivity. Qed.

Lemma app_nil_r (s : string) : s +:+ "" = s.
Proof.
  induction s as [|c s IH]; [reflexivity |].
  now rewrite app_cons, IH.
Qed.

Lemma app_assoc (a b c : string) : (a +:+ b) +:+ c = a +:+ (b +:+ c).
Proof.
  induction a as [|x a IH]; [reflexivity |].
  now rewrite !app_cons, IH.
Qed.

Lemma length_app (a b : string) :
  String.length (a +:+ b) = (String.length a + String.length b)%nat.
Proof.
  induction a as [|x a IH]; [reflexivity |].
  rewrite app_cons. simpl. now rewrite IH.
Qed.

Lemma length_replicate n c : String.length (replicate n c) = n.
Proof. induction n as [|n IH]; simpl; [reflexivity | now rewrite IH]. Qed.

Lemma replicate_snoc n c s :
  replicate (S n) c +:+ s = replicate n c +:+ String c s.
Proof.
  induction n as [|n IH]; [reflexivity |].
  change (replicate (S (S n)) c) with (String c (replicate (S n) c)).
  rewrite app_cons, IH. reflexivity.
Qed.

Lemma forallb_app p a b : forallb p (a +:+ b) = forallb p a && forallb p b.
Proof.
  induction a as [|x a IH]; [reflexivity |].
  rewrite app_cons. simpl. now rewrite IH, andb_assoc.
Qed.

Lemma take_drop n s : take n s +:+ drop n s = s.
Proof.
  revert s; induction n as [|n IH]; intros [|c s]; simpl; try reflexivity.
  now rewrite app_cons, IH.
Qed.

Lemma take_app_length a b : take (String.length a) (a +:+ b) = a.
Proof.
  induction a as [|x a IH]; [now destruct b |].
  rewrite app_cons. simpl. now rewrite IH.
Qed.

Lemma drop_app_length a b : drop (String.length a) (a +:+ b) = b.
Proof.
  induction a as [|x a IH]; [now destruct b |].
  rewrite app_cons. simpl. exact IH.
Qed.

Lemma prefix_app p s : String.prefix p (p +:+ s) = true.
Proof.
  induction p as [|c p IH]; [now destruct s |].
  rewrite app_cons. simpl.
  destruct (ascii_dec c c); [exact IH | congruence].
Qed.

Lemma prefix_split p s :
  String.prefix p s = true -> s = p +:+ drop (String.length p) s.
Proof.
  revert s; induction p as [|c p IH]; intros s H.
  - now destruct s.
  - destruct s as [|d s]; simpl in H; [discriminate |].
    destruct (ascii_dec c d) as [->|]; [|discriminate].
    rewrite app_cons. simpl. f_equal. now apply IH.
Qed.

End Str.

(** ** [snowflake.ts] *)

Module Snowflake.

Local Open Scope Z_scope.

(** [DEFAULT_EPOCH]. *)
Definition DEFAULT_EPOCH : Z := 1420070400000.

(** The digit characters of [BigInt.prototype.toString(16)]. *)
Definition hexDigit (d : Z) : ascii :=
  match d with
  | 0 => "0" | 1 => "1" | 2 => "2" | 3 => "3" | 4 => "4" | 5 => "5"
  | 6 => "6" | 7 => "7" | 8 => "8" | 9 => "9" | 10 => "a" | 11 => "b"
  | 12 => "c" | 13 => "d" | 14 => "e" | _ => "f"
  end%char.

(** Digits of a non-negative value, least significant first, pushed in
    front of [acc]; [fuel] bounds the number of digits. *)
Fixpoint toStringHexAux (fuel : nat) (v : Z) (acc : string) : string :=
  match fuel with
  | O => acc
  | S f =>
      let acc' := String (hexDigit (v mod 16)) acc in
      if v / 16 =? 0 then acc' else toStringHexAux f (v / 16) acc'
  end.

(** [value.toString(16)] on a bigint. *)
Definition toString16 (v : Z) : string :=
  if v <? 0
  then String "-"%char (toStringHexAux (S (Z.to_nat (Z.log2 (- v)))) (- v) "")
  else toStringHexAux (S (Z.to_nat (Z.log2 v))) v "".

(** [toHex]: [value.toString(16).padStart(16, "0")]. *)
Definition toHex (value : Z) : string :=
  Str.padStart 16 "0"%char (toString16 value).

(** The value of one hexadecimal digit as [Number.parseInt(_, 16)] reads it;
    [None] for a character that is no digit. *)
Definition hexValue (c : ascii) : option Z :=
  let n := Z.of_nat (nat_of_ascii c) in
  if (48 <=? n) && (n <=? 57) then Some (n - 48)
  else if (97 <=? n) && (n <=? 102) then Some (n - 87)
  else if (65 <=? n) && (n <=? 70) then Some (n - 55)
  else None.

(** [Number.parseInt(s, 16)] on a string made of hexadecimal digits only
    (the only strings a [Snowflake] holds): the digits read so far are
    accumulated in [acc]; reading stops at the first non-digit. *)
Fixpoint parseHexFrom (acc : Z) (s : string) : Z :=
  match s with
  | EmptyString => acc
  | String c s' =>
      match hexValue c with
      | Some d => parseHexFrom (16 * acc + d) s'
      | None => acc
      end
  end.

(** [Number.parseInt(s, 16)]; the [NaN] of a string without any digit is
    not modelled (it reads as [0]). *)
Definition parseInt16 (s : string) : Z := parseHexFrom 0 s.

(** [toBigInt] on a hex string. *)
Definition toBigInt (value : string) : Z :=
  let highBits := parseInt16 (Str.take 8 value) in
  let lowBits := parseInt16 (Str.take 8 (Str.drop 8 value)) in
  Z.lor (Z.shiftl highBits 32) lowBits.

(** [class Source]: the epoch and the private field [#seq]. *)
Record Source : Type := mkSource { epoch : Z; seq : Z }.

(** [setSequence(v)] on an integral [v]. *)
Definition setSequence (v : Z) (src : Source) : Source :=
  {| epoch := epoch src; seq := Z.land v 0x3fffff |}.

(** [new Source({ epoch, sequence })]. *)
Definition newSource (epoch0 sequence : Z) : Source :=
  setSequence sequence {| epoch := epoch0; seq := 0 |}.

(** [get sequence()]. *)
Definition sequence (src : Source) : Z := Z.land (seq src) 0x3fffff.

(** [reset()]. *)
Definition reset (src : Source) : Source := setSequence 0 src.

(** [Source.next(timestamp)]: the identifier and the updated source. *)
Definition next (timestamp : Z) (src : Source) : string * Source :=
  let seq' := Z.land (seq src + 1) 0x3fffff in
  let value := Z.lor seq' (Z.shiftl (timestamp - epoch src) 22) in
  (toHex value, {| epoch := epoch src; seq := seq' |}).

(** [PATTERN = /^[0-9a-f]{16}$/]. *)
Definition isLowerHex (c : ascii) : bool :=
  let n := nat_of_ascii c in
  ((48 <=? n) && (n <=? 57) || (97 <=? n) && (n <=? 102))%nat.

(** [valid(value)]. *)
Definition valid (value : string) : bool :=
  (String.length value =? 16)%nat && Str.forallb isLowerHex value.

(** The argument of [lowerbound] and [upperbound], by its [typeof]. *)
Inductive Timelike : Type :=
| TDate (ms : Z)
| TNumber (ms : Z)
| TSnowflake (s : string).

Definition lowerbound (timelike : Timelike) (source : Source) : string :=
  match timelike with
  | TDate ms | TNumber ms =>
      toHex (Z.lor 0x000000 (Z.shiftl (ms - epoch source) 22))
  | TSnowflake s => s
  end.

Definition upperbound (timelike : Timelike) (source : Source) : string :=
  match timelike with
  | TDate ms | TNumber ms =>
      toHex (Z.lor 0x3fffff (Z.shiftl (ms - epoch source) 22))
  | TSnowflake s => s
  end.

(** [getSequence], [getMachineId], [getTimestamp]. *)
Definition getSequence (value : string) : Z := Z.land (toBigInt value) 0xfff.
Definition getMachineId (value : string) : Z :=
  Z.shiftr (Z.land (toBigInt value) 0x3ff000) 12.
Definition getTimestamp (value : string) (epoch0 : Z) : Z :=
  Z.shiftr (toBigInt value) 22 + epoch0.

(** *** Fixed-width hexadecimal notation, used to reason about [toHex] *)

(** The [n] lowest hexadecimal digits of [v], most significant first. *)
Fixpoint hexw (n : nat) (v : Z) : string :=
  match n with
  | O => EmptyString
  | S k => String (hexDigit ((v / 16 ^ Z.of_nat k) mod 16)) (hexw k v)
  end.

Ltac digit_cases d :=
  let H := fresh "Hd" in
  assert (H : d = 0 \/ d = 1 \/ d = 2 \/ d = 3 \/ d = 4 \/ d = 5 \/ d = 6 \/
              d = 7 \/ d = 8 \/ d = 9 \/ d = 10 \/ d = 11 \/ d = 12 \/
              d = 13 \/ d = 14 \/ d = 15) by lia;
  repeat (destruct H as [H | H]; [subst d |]); [.. | subst d].

Lemma hexDigit_lower d : 0 <= d < 16 -> isLowerHex (hexDigit d) = true.
Proof. intros Hr. digit_cases d; reflexivity. Qed.

Lemma hexDigit_value d : 0 <= d < 16 -> hexValue (hexDigit d) = Some d.
Proof. intros Hr. digit_cases d; reflexivity. Qed.

Lemma hexDigit_compare a b :
  0 <= a < 16 -> 0 <= b < 16 ->
  Ascii.compare (hexDigit a) (hexDigit b) = (a ?= b).
Proof. intros Ha Hb. digit_cases a; digit_cases b; reflexivity. Qed.

Lemma pow16_pos k : 0 < 16 ^ Z.of_nat k.
Proof. apply Z.pow_pos_nonneg; lia. Qed.

Lemma pow16_succ k : 16 ^ Z.of_nat (S k) = 16 ^ Z.of_nat k * 16.
Proof. rewrite Nat2Z.inj_succ, Z.pow_succ_r by lia. lia. Qed.

Lemma length_hexw n v : String.length (hexw n v) = n.
Proof. induction n as [|n IH]; simpl; [reflexivity | now rewrite IH]. Qed.

Lemma hexw_lower n v : Str.forallb isLowerHex (hexw n v) = true.
Proof.
  induction n as [|n IH]; simpl; [reflexivity |].
  rewrite IH, hexDigit_lower; [reflexivity |].
  apply Z.mod_pos_bound; lia.
Qed.

Lemma hexw_zero n : hexw n 0 = Str.replicate n "0"%char.
Proof.
  induction n as [|n IH]; [reflexivity |].
  cbn [hexw Str.replicate]. rewrite IH. f_equal.
Qed.

(** Lexicographic order on fixed-width notations is the numeric order. *)
Lemma hexw_compare n a b :
  String.compare (hexw n a) (hexw n b)
  = (a mod 16 ^ Z.of_nat n ?= b mod 16 ^ Z.of_nat n).
Proof.
  induction n as [|n IH].
  - simpl. now rewrite !Z.mod_1_r.
  - cbn [hexw String.compare].
    pose proof (pow16_pos n) as Hp.
    rewrite pow16_succ, !Z.rem_mul_r by lia.
    set (P := 16 ^ Z.of_nat n) in *.
    assert (Ha : 0 <= (a / P) mod 16 < 16) by (apply Z.mod_pos_bound; lia).
    assert (Hb : 0 <= (b / P) mod 16 < 16) by (apply Z.mod_pos_bound; lia).
    assert (Ra : 0 <= a mod P < P) by (apply Z.mod_pos_bound; lia).
    assert (Rb : 0 <= b mod P < P) by (apply Z.mod_pos_bound; lia).
    rewrite hexDigit_compare by assumption.
    destruct (Z.compare_spec ((a / P) mod 16) ((b / P) mod 16)) as [E|L|G].
    + rewrite IH, E.
      destruct (Z.compare_spec (a mod P) (b mod P));
        symmetry; [apply Z.compare_eq_iff | apply Z.compare_lt_iff
                  | apply Z.compare_gt_iff]; lia.
    + symmetry. apply Z.compare_lt_iff. nia.
    + symmetry. apply Z.compare_gt_iff. nia.
Qed.

Lemma hexw_snoc k v :
  hexw (S k) v = hexw k (v / 16) +:+ String (hexDigit (v mod 16)) "".
Proof.
  induction k as [|k IH].
  - simpl. now rewrite Z.div_1_r.
  - change (hexw (S (S k)) v)
      with (String (hexDigit ((v / 16 ^ Z.of_nat (S k)) mod 16)) (hexw (S k) v)).
    rewrite IH.
    change (hexw (S k) (v / 16))
      with (String (hexDigit ((v / 16 / 16 ^ Z.of_nat k) mod 16)) (hexw k (v / 16))).
    rewrite Str.app_cons. f_equal. f_equal.
    pose proof (pow16_pos k).
    rewrite Z.div_div by lia. rewrite pow16_succ. f_equal. f_equal. lia.
Qed.

Lemma toStringHexAux_spec fuel :
  forall v acc n,
    (1 <= n)%nat -> 0 <= v < 16 ^ Z.of_nat n -> v < 2 ^ Z.of_nat fuel ->
    Str.padStart (n + String.length acc) "0"%char (toStringHexAux fuel v acc)
    = hexw n v +:+ acc.
Proof.
  induction fuel as [|f IH]; intros v acc n Hn Hv Hf.
  - simpl in Hf. assert (v = 0) by lia. subst v.
    unfold Str.padStart. simpl.
    replace (n + String.length acc - String.length acc)%nat with n by lia.
    now rewrite hexw_zero.
  - cbn [toStringHexAux]. cbv zeta.
    destruct n as [|m]; [lia |].
    rewrite hexw_snoc, Str.app_assoc, Str.app_cons, Str.app_nil_l.
    destruct (Z.eqb_spec (v / 16) 0) as [E|E].
    + rewrite E, hexw_zero. unfold Str.padStart. simpl String.length.
      now replace (S m + String.length acc - S (String.length acc))%nat with m by lia.
    + rewrite pow16_succ in Hv.
      rewrite Nat2Z.inj_succ, Z.pow_succ_r in Hf by lia.
      pose proof (pow16_pos m) as Hp.
      assert (Hm : (1 <= m)%nat).
      { destruct m; [| lia]. change (16 ^ Z.of_nat 0) with 1 in Hv.
        pose proof (Z.div_small v 16). lia. }
      rewrite <- (IH (v / 16) (String (hexDigit (v mod 16)) acc) m Hm).
      * simpl String.length. f_equal. lia.
      * split; [apply Z.div_pos; lia |].
        apply Z.div_lt_upper_bound; lia.
      * apply Z.div_lt_upper_bound; lia.
Qed.

(** On 64-bit values [toHex] is the 16-digit notation. *)
Lemma toHex_hexw v : 0 <= v < 2 ^ 64 -> toHex v = hexw 16 v.
Proof.
  intros Hv. unfold toHex, toString16.
  destruct (Z.ltb_spec v 0) as [?|_]; [lia |].
  rewrite <- (Str.app_nil_r (hexw 16 v)).
  rewrite <- (toStringHexAux_spec (S (Z.to_nat (Z.log2 v))) v "" 16);
    [reflexivity | lia | change (16 ^ Z.of_nat 16) with (2 ^ 64); lia |].
  rewrite Nat2Z.inj_succ, Z2Nat.id by apply Z.log2_nonneg.
  destruct (Z.eq_dec v 0) as [->|Hz]; [reflexivity |].
  apply Z.log2_spec. lia.
Qed.

Lemma toHex_valid v : 0 <= v < 2 ^ 64 -> valid (toHex v) = true.
Proof.
  intros Hv. rewrite toHex_hexw by assumption. unfold valid.
  now rewrite length_hexw, hexw_lower.
Qed.

Lemma toHex_compare a b :
  0 <= a < 2 ^ 64 -> 0 <= b < 2 ^ 64 ->
  String.compare (toHex a) (toHex b) = (a ?= b).
Proof.
  intros Ha Hb. rewrite !toHex_hexw, hexw_compare by assumption.
  change (16 ^ Z.of_nat 16) with (2 ^ 64).
  now rewrite !Z.mod_small by assumption.
Qed.

Lemma toHex_leb a b :
  0 <= a < 2 ^ 64 -> 0 <= b < 2 ^ 64 ->
  String.leb (toHex a) (toHex b) = (a <=? b).
Proof.
  intros Ha Hb. unfold String.leb. rewrite toHex_compare by assumption.
  unfold Z.leb. now destruct (a ?= b).
Qed.

Lemma hexw_add n m v :
  hexw (n + m) v = hexw n (v / 16 ^ Z.of_nat m) +:+ hexw m v.
Proof.
  induction n as [|n IH]; [reflexivity |].
  cbn [Nat.add hexw]. rewrite Str.app_cons, IH. f_equal. f_equal.
  pose proof (pow16_pos m). pose proof (pow16_pos n).
  rewrite Z.div_div by lia.
  rewrite Nat2Z.inj_add, Z.pow_add_r by lia.
  now rewrite (Z.mul_comm (16 ^ Z.of_nat n)).
Qed.

Lemma parseHexFrom_hexw n :
  forall acc v,
    parseHexFrom acc (hexw n v) = acc * 16 ^ Z.of_nat n + v mod 16 ^ Z.of_nat n.
Proof.
  induction n as [|n IH]; intros acc v.
  - simpl. rewrite Z.mod_1_r. lia.
  - cbn [hexw parseHexFrom]. pose proof (pow16_pos n) as Hp.
    rewrite hexDigit_value by (apply Z.mod_pos_bound; lia).
    rewrite IH, pow16_succ, Z.rem_mul_r by lia. lia.
Qed.

Lemma land_mask22 v : 0 <= Z.land v 0x3fffff < 2 ^ 22.
Proof.
  change 0x3fffff with (Z.ones 22). rewrite Z.land_ones by lia.
  apply Z.mod_pos_bound. lia.
Qed.

(** A value below [2^k] and a multiple of [2^k] share no bit. *)
Lemma lor_shiftl_add k s d :
  0 <= k -> 0 <= s < 2 ^ k -> Z.lor s (Z.shiftl d k) = s + d * 2 ^ k.
Proof.
  intros Hk Hs.
  assert (H0 : Z.land s (Z.shiftl d k) = 0).
  { apply Z.bits_inj'. intros n Hn.
    rewrite Z.land_spec, Z.bits_0.
    destruct (Z.lt_ge_cases n k) as [L|G].
    - rewrite (Z.shiftl_spec_low d k n L). apply andb_false_r.
    - destruct (Z.eq_dec s 0) as [->|Hz]; [now rewrite Z.bits_0 |].
      rewrite (Z.bits_above_log2 s n); [reflexivity | lia |].
      assert (Z.log2 s < k) by (apply Z.log2_lt_pow2; lia). lia. }
  rewrite <- Z.lxor_lor, <- Z.add_nocarry_lxor by assumption.
  now rewrite Z.shiftl_mul_pow2.
Qed.

Lemma take_hexw n a s : Str.take n (hexw n a +:+ s) = hexw n a.
Proof. rewrite <- (length_hexw n a) at 1. apply Str.take_app_length. Qed.

Lemma drop_hexw n a s : Str.drop n (hexw n a +:+ s) = s.
Proof. rewrite <- (length_hexw n a) at 1. apply Str.drop_app_length. Qed.

(** [toBigInt] reads back what [toHex] wrote. *)
Lemma toBigInt_toHex v : 0 <= v < 2 ^ 64 -> toBigInt (toHex v) = v.
Proof.
  intros Hv. rewrite toHex_hexw by assumption. unfold toBigInt, parseInt16.
  change 16%nat with (8 + 8)%nat. rewrite hexw_add.
  rewrite take_hexw, drop_hexw.
  rewrite <- (Str.app_nil_r (hexw 8 v)), take_hexw.
  rewrite !parseHexFrom_hexw. change (16 ^ Z.of_nat 8) with (2 ^ 32).
  rewrite Z.lor_comm, lor_shiftl_add
    by (try apply Z.mod_pos_bound; lia).
  rewrite (Z.mod_small (v / 2 ^ 32)).
  - pose proof (Z.div_mod v (2 ^ 32)). lia.
  - split; [apply Z.div_pos; lia | apply Z.div_lt_upper_bound; lia].
Qed.

(** The three values [next], [lowerbound] and [upperbound] encode. *)
Lemma next_value (src : Source) (t : Z) :
  fst (next t src)
  = toHex (Z.land (seq src + 1) 0x3fffff + (t - epoch src) * 2 ^ 22).
Proof.
  unfold next. cbn [fst].
  now rewrite lor_shiftl_add by (try apply land_mask22; lia).
Qed.

Lemma lowerbound_value (src : Source) (t : Z) :
  lowerbound (TNumber t) src = toHex ((t - epoch src) * 2 ^ 22).
Proof.
  unfold lowerbound. now rewrite lor_shiftl_add by lia.
Qed.

Lemma upperbound_value (src : Source) (t : Z) :
  upperbound (TNumber t) src = toHex (0x3fffff + (t - epoch src) * 2 ^ 22).
Proof.
  unfold upperbound. now rewrite lor_shiftl_add by lia.
Qed.

(** C10.  For a timestamp [t] with [epoch <= t < epoch + 2^42], the
    identifier [src.next(t)] is 16 lowercase hexadecimal characters, so
    [valid] accepts it, and it lies between [lowerbound(t, src)] and
    [upperbound(t, src)] in the lexicographic order of strings; on these
    three strings the lexicographic order is the order of the numbers they
    denote ([toBigInt]). *)
Theorem next_valid_between_bounds (src : Source) (t : Z) :
  epoch src <= t < epoch src + 2 ^ 42 ->
  let id := fst (next t src) in
  let lo := lowerbound (TNumber t) src in
  let hi := upperbound (TNumber t) src in
  String.length id = 16%nat /\
  valid id = true /\
  String.leb lo id = true /\
  String.leb id hi = true /\
  toBigInt lo <= toBigInt id <= toBigInt hi /\
  String.compare lo id = (toBigInt lo ?= toBigInt id) /\
  String.compare id hi = (toBigInt id ?= toBigInt hi) /\
  String.compare lo hi = (toBigInt lo ?= toBigInt hi).
Proof.
  intros Ht id lo hi. subst id lo hi.
  rewrite next_value, lowerbound_value, upperbound_value.
  pose proof (land_mask22 (seq src + 1)) as Hs.
  set (s := Z.land (seq src + 1) 0x3fffff) in *.
  set (b := (t - epoch src) * 2 ^ 22).
  assert (Hb : 0 <= b /\ b + 2 ^ 22 <= 2 ^ 64) by (subst b; lia).
  assert (Hlo : 0 <= b < 2 ^ 64) by lia.
  assert (Hid : 0 <= s + b < 2 ^ 64) by lia.
  assert (Hhi : 0 <= 0x3fffff + b < 2 ^ 64) by lia.
  rewrite !toBigInt_toHex, !toHex_compare, !toHex_leb by assumption.
  rewrite toHex_valid by assumption.
  rewrite toHex_hexw, length_hexw by assumption.
  repeat split; try reflexivity; try apply Z.leb_le; lia.
Qed.

(** The bounds hold at a concrete source and timestamp. *)
Lemma next_valid_between_bounds_witness :
  let src := newSource DEFAULT_EPOCH 41 in
  let t := 1700000000000 in
  fst (next t src) = "104b46ae0000002a" /\
  lowerbound (TNumber t) src = "104b46ae00000000" /\
  upperbound (TNumber t) src = "104b46ae003fffff" /\
  valid (fst (next t src)) = true /\
  String.leb (lowerbound (TNumber t) src) (fst (next t src)) = true /\
  String.leb (fst (next t src)) (upperbound (TNumber t) src) = true.
Proof.
  intros src t.
  assert (Ht : epoch src <= t < epoch src + 2 ^ 42) by (vm_compute; split; congruence).
  pose proof (next_valid_between_bounds src t Ht) as H.
  cbv zeta in H. destruct H as (_ & Hv & Hl & Hu & _).
  repeat split; try assumption; vm_compute; reflexivity.
Defined.

(** *** Reading identifiers back *)

Lemma toBigInt_next (src : Source) (t : Z) :
  epoch src <= t < epoch src + 2 ^ 42 ->
  toBigInt (fst (next t src))
  = Z.land (seq src + 1) 0x3fffff + (t - epoch src) * 2 ^ 22.
Proof.
  intros Ht. rewrite next_value. apply toBigInt_toHex.
  pose proof (land_mask22 (seq src + 1)). lia.
Qed.

Lemma shiftr22_add s d : 0 <= s < 2 ^ 22 -> Z.shiftr (s + d * 2 ^ 22) 22 = d.
Proof.
  intros Hs. rewrite Z.shiftr_div_pow2 by lia.
  rewrite Z.add_comm, Z.div_add_l by lia.
  rewrite Z.div_small by assumption. lia.
Qed.

(** [getTimestamp] recovers the timestamp an identifier, or a bound, was
    made from, when it is read with the epoch of the source. *)
Theorem getTimestamp_next (src : Source) (t : Z) :
  epoch src <= t < epoch src + 2 ^ 42 ->
  getTimestamp (fst (next t src)) (epoch src) = t /\
  getTimestamp (lowerbound (TNumber t) src) (epoch src) = t /\
  getTimestamp (upperbound (TNumber t) src) (epoch src) = t.
Proof.
  intros Ht. unfold getTimestamp.
  rewrite toBigInt_next, lowerbound_value, upperbound_value by assumption.
  rewrite !toBigInt_toHex by lia.
  rewrite (shiftr22_add _ _ (land_mask22 (seq src + 1))).
  rewrite (shiftr22_add 0x3fffff) by lia.
  replace ((t - epoch src) * 2 ^ 22) with (0 + (t - epoch src) * 2 ^ 22) by lia.
  rewrite (shiftr22_add 0) by lia. lia.
Qed.

Lemma getTimestamp_next_witness :
  getTimestamp (fst (next 1700000000000 (newSource DEFAULT_EPOCH 41)))
    DEFAULT_EPOCH = 1700000000000.
Proof.
  refine (proj1 (getTimestamp_next (newSource DEFAULT_EPOCH 41)
                   1700000000000 _)).
  vm_compute. split; congruence.
Defined.

(** The 22-bit sequence of an identifier is what [getMachineId] (its upper
    10 bits) and [getSequence] (its lower 12 bits) return, and it is the
    sequence number the source holds after the call: the one before plus
    one, modulo [2^22]. *)
Theorem sequence_bits_of_next (src : Source) (t : Z) :
  epoch src <= t < epoch src + 2 ^ 42 ->
  let id := fst (next t src) in
  let src' := snd (next t src) in
  getMachineId id * 2 ^ 12 + getSequence id = sequence src' /\
  sequence src' = (seq src + 1) mod 2 ^ 22 /\
  0 <= getSequence id < 2 ^ 12 /\
  0 <= getMachineId id < 2 ^ 10.
Proof.
  intros Ht id src'. subst id src'.
  unfold getMachineId, getSequence. rewrite toBigInt_next by assumption.
  unfold next, sequence. cbn [snd seq].
  pose proof (land_mask22 (seq src + 1)) as Hs.
  set (s := Z.land (seq src + 1) 0x3fffff) in *.
  set (d := t - epoch src).
  assert (Hss : Z.land s 0x3fffff = s).
  { change 0x3fffff with (Z.ones 22). rewrite Z.land_ones by lia.
    apply Z.mod_small. assumption. }
  assert (Hs22 : s = (seq src + 1) mod 2 ^ 22).
  { subst s. change 0x3fffff with (Z.ones 22). now rewrite Z.land_ones by lia. }
  rewrite Z.shiftr_land.
  change (Z.shiftr 0x3ff000 12) with (Z.ones 10).
  change 0xfff with (Z.ones 12).
  rewrite !Z.land_ones, Z.shiftr_div_pow2 by lia.
  assert (Hlow : (s + d * 2 ^ 22) mod 2 ^ 12 = s mod 2 ^ 12).
  { replace (d * 2 ^ 22) with (d * 2 ^ 10 * 2 ^ 12) by lia.
    apply Z.mod_add. lia. }
  assert (Hhigh : ((s + d * 2 ^ 22) / 2 ^ 12) mod 2 ^ 10 = s / 2 ^ 12).
  { replace (d * 2 ^ 22) with (d * 2 ^ 10 * 2 ^ 12) by lia.
    rewrite Z.div_add by lia. rewrite Z.mod_add by lia.
    apply Z.mod_small. split; [apply Z.div_pos; lia |].
    apply Z.div_lt_upper_bound; lia. }
  rewrite Hlow, Hhigh, Hss.
  pose proof (Z.div_mod s (2 ^ 12) ltac:(lia)).
  pose proof (Z.mod_pos_bound s (2 ^ 12) ltac:(lia)).
  assert (0 <= s / 2 ^ 12 < 2 ^ 10).
  { split; [apply Z.div_pos; lia | apply Z.div_lt_upper_bound; lia]. }
  repeat split; lia.
Qed.

Lemma sequence_bits_of_next_witness :
  let id := fst (next 1700000000000 (newSource DEFAULT_EPOCH 4194303)) in
  getMachineId id = 0 /\ getSequence id = 0.
Proof.
  intros id.
  destruct (sequence_bits_of_next (newSource DEFAULT_EPOCH 4194303)
              1700000000000) as (H1 & H2 & H3 & H4).
  - vm_compute. split; congruence.
  - fold id in H1, H3, H4. rewrite H2 in H1.
    change ((seq (newSource DEFAULT_EPOCH 4194303) + 1) mod 2 ^ 22) with 0 in H1.
    lia.
Defined.

(** Identifiers sort by time: an identifier made at an earlier timestamp is
    smaller as a string than one made at a later timestamp, whatever the
    sequence numbers, for sources of the same epoch. *)
Theorem next_ordered_by_time (src1 src2 : Source) (t1 t2 : Z) :
  epoch src1 = epoch src2 ->
  epoch src1 <= t1 -> t1 < t2 -> t2 < epoch src1 + 2 ^ 42 ->
  String.compare (fst (next t1 src1)) (fst (next t2 src2)) = Lt.
Proof.
  intros He H1 H12 H2. rewrite !next_value.
  pose proof (land_mask22 (seq src1 + 1)).
  pose proof (land_mask22 (seq src2 + 1)).
  rewrite toHex_compare by lia.
  apply Z.compare_lt_iff. lia.
Qed.

Lemma next_ordered_by_time_witness :
  String.compare
    (fst (next 1700000000000 (newSource DEFAULT_EPOCH 4194000)))
    (fst (next 1700000000001 (newSource DEFAULT_EPOCH 3)))
  = Lt.
Proof.
  apply next_ordered_by_time; [reflexivity | | | ];
    vm_compute; congruence.
Defined.

(** Two identifiers made one after the other from the same source at the
    same timestamp differ; the second is the larger one unless the sequence
    number wrapped around to zero. *)
Theorem next_twice_distinct (src : Source) (t : Z) :
  epoch src <= t < epoch src + 2 ^ 42 ->
  let id1 := fst (next t src) in
  let src1 := snd (next t src) in
  let id2 := fst (next t src1) in
  id1 <> id2 /\
  (sequence src1 <> 0x3fffff -> String.compare id1 id2 = Lt) /\
  (sequence src1 = 0x3fffff -> String.compare id2 id1 = Lt).
Proof.
  intros Ht id1 src1 id2. subst id1 id2 src1.
  rewrite !next_value. unfold next, sequence. cbn [snd seq epoch].
  pose proof (land_mask22 (seq src + 1)) as Hs.
  set (s := Z.land (seq src + 1) 0x3fffff) in *.
  assert (Hss : Z.land s 0x3fffff = s).
  { change 0x3fffff with (Z.ones 22). rewrite Z.land_ones by lia.
    apply Z.mod_small. assumption. }
  rewrite Hss.
  pose proof (land_mask22 (s + 1)) as Hs1.
  assert (Hnext : Z.land (s + 1) 0x3fffff
                  = if Z.eq_dec s 0x3fffff then 0 else s + 1).
  { change 0x3fffff with (Z.ones 22) at 1. rewrite Z.land_ones by lia.
    destruct (Z.eq_dec s 0x3fffff) as [->|Hne]; [reflexivity |].
    apply Z.mod_small. lia. }
  set (s1 := Z.land (s + 1) 0x3fffff) in *.
  set (b := (t - epoch src) * 2 ^ 22).
  assert (Hb : 0 <= b /\ b + 2 ^ 22 <= 2 ^ 64) by (subst b; lia).
  assert (Hcmp : String.compare (toHex (s + b)) (toHex (s1 + b))
                 = (s + b ?= s1 + b)) by (apply toHex_compare; lia).
  assert (Hcmp' : String.compare (toHex (s1 + b)) (toHex (s + b))
                  = (s1 + b ?= s + b)) by (apply toHex_compare; lia).
  destruct (Z.eq_dec s 0x3fffff) as [Heq|Hne].
  - split; [| split].
    + intros E. apply (f_equal toBigInt) in E.
      rewrite !toBigInt_toHex in E by lia. lia.
    + intros Hn. contradiction.
    + intros _. rewrite Hcmp'. apply Z.compare_lt_iff. lia.
  - split; [| split].
    + intros E. apply (f_equal toBigInt) in E.
      rewrite !toBigInt_toHex in E by lia. lia.
    + intros _. rewrite Hcmp. apply Z.compare_lt_iff. lia.
    + intros Hn. contradiction.
Qed.

Lemma next_twice_distinct_witness :
  let src := newSource DEFAULT_EPOCH 4194302 in
  let t := 1700000000000 in
  fst (next t src) = "104b46ae003fffff" /\
  fst (next t (snd (next t src))) = "104b46ae00000000" /\
  fst (next t src) <> fst (next t (snd (next t src))).
Proof.
  intros src t. split; [reflexivity |]. split; [reflexivity |].
  refine (proj1 (next_twice_distinct src t _)).
  vm_compute. split; congruence.
Defined.

(** *** Which identifiers are valid *)

Lemma length_padStart n c s :
  String.length (Str.padStart n c s) = Nat.max n (String.length s).
Proof.
  unfold Str.padStart. rewrite Str.length_app, Str.length_replicate. lia.
Qed.

Lemma length_toStringHexAux_acc fuel :
  forall v acc,
    (String.length acc <= String.length (toStringHexAux fuel v acc))%nat.
Proof.
  induction fuel as [|f IH]; intros v acc; [reflexivity |].
  cbn [toStringHexAux]. cbv zeta.
  destruct (v / 16 =? 0); [simpl; lia |].
  etransitivity; [| apply IH]. simpl. lia.
Qed.

(** A value of at least [16^n] is written with more than [n] digits. *)
Lemma length_toStringHexAux_ge n :
  forall fuel v acc,
    16 ^ Z.of_nat n <= v -> v < 2 ^ Z.of_nat fuel ->
    (n + 1 + String.length acc
     <= String.length (toStringHexAux fuel v acc))%nat.
Proof.
  induction n as [|n IH]; intros fuel v acc Hv Hf.
  - destruct fuel as [|f]; [simpl in *; lia |].
    cbn [toStringHexAux]. cbv zeta.
    destruct (v / 16 =? 0); [simpl; lia |].
    etransitivity; [| apply length_toStringHexAux_acc]. simpl. lia.
  - rewrite pow16_succ in Hv. pose proof (pow16_pos n) as Hp.
    destruct fuel as [|f]; [simpl in *; lia |].
    rewrite Nat2Z.inj_succ, Z.pow_succ_r in Hf by lia.
    cbn [toStringHexAux]. cbv zeta.
    assert (Hq : 16 ^ Z.of_nat n <= v / 16)
      by (apply Z.div_le_lower_bound; lia).
    destruct (Z.eqb_spec (v / 16) 0) as [E|E]; [lia |].
    etransitivity; [| apply IH]; [simpl; lia | assumption |].
    apply Z.div_lt_upper_bound; lia.
Qed.

Lemma toHex_negative_invalid v : v < 0 -> valid (toHex v) = false.
Proof.
  intros Hv. unfold valid, toHex, toString16, Str.padStart.
  destruct (Z.ltb_spec v 0) as [_|?]; [| lia].
  rewrite Str.forallb_app. cbn [Str.forallb].
  change (isLowerHex "-"%char) with false.
  now rewrite andb_false_r, andb_false_r.
Qed.

Lemma toHex_large_invalid v : 2 ^ 64 <= v -> valid (toHex v) = false.
Proof.
  intros Hv. unfold valid, toHex. rewrite length_padStart.
  unfold toString16. destruct (Z.ltb_spec v 0) as [?|_]; [lia |].
  assert (Hlen : (16 + 1 + 0
                  <= String.length
                       (toStringHexAux (S (Z.to_nat (Z.log2 v))) v ""))%nat).
  { apply (length_toStringHexAux_ge 16 _ v "").
    - change (16 ^ Z.of_nat 16) with (2 ^ 64). lia.
    - rewrite Nat2Z.inj_succ, Z2Nat.id by apply Z.log2_nonneg.
      apply Z.log2_spec. lia. }
  destruct (Nat.eqb_spec
              (Nat.max 16 (String.length
                 (toStringHexAux (S (Z.to_nat (Z.log2 v))) v ""))) 16);
    [lia | reflexivity].
Qed.

(** [next] makes a valid identifier exactly for the timestamps from the
    epoch up to [2^42] milliseconds after it; an earlier timestamp gives a
    string with a minus sign, a later one a string of more than 16
    characters. *)
Theorem next_valid_iff (src : Source) (t : Z) :
  valid (fst (next t src)) = true <-> epoch src <= t < epoch src + 2 ^ 42.
Proof.
  pose proof (land_mask22 (seq src + 1)) as Hs.
  split.
  - intros Hvalid. rewrite next_value in Hvalid.
    destruct (Z.lt_ge_cases t (epoch src)) as [Hlt|Hge].
    + rewrite toHex_negative_invalid in Hvalid by lia. discriminate.
    + destruct (Z.lt_ge_cases t (epoch src + 2 ^ 42)) as [Hlt|Hge'];
        [lia |].
      rewrite toHex_large_invalid in Hvalid by lia. discriminate.
  - intros Ht. rewrite next_value. apply toHex_valid. lia.
Qed.

(** *** Valid identifiers and 64-bit values correspond *)

Lemma isLowerHex_digit c :
  isLowerHex c = true ->
  exists d, hexValue c = Some d /\ 0 <= d < 16 /\ hexDigit d = c.
Proof.
  destruct c as [b0 b1 b2 b3 b4 b5 b6 b7].
  destruct b0, b1, b2, b3, b4, b5, b6, b7; intros H;
    try discriminate H; eexists; (split; [reflexivity |]);
    (split; [vm_compute; split; congruence | reflexivity]).
Qed.

Lemma hexw_high n : forall a b, hexw n (a * 16 ^ Z.of_nat n + b) = hexw n b.
Proof.
  induction n as [|n IH]; intros a b; [reflexivity |].
  cbn [hexw]. pose proof (pow16_pos n) as Hp. f_equal.
  - f_equal. rewrite pow16_succ.
    replace (a * (16 ^ Z.of_nat n * 16) + b)
      with (a * 16 * 16 ^ Z.of_nat n + b) by lia.
    rewrite Z.div_add_l by lia.
    rewrite Z.add_comm, Z.mod_add by lia. reflexivity.
  - rewrite pow16_succ.
    replace (a * (16 ^ Z.of_nat n * 16) + b)
      with (a * 16 * 16 ^ Z.of_nat n + b) by lia.
    apply IH.
Qed.

Lemma parseHexFrom_acc s :
  Str.forallb isLowerHex s = true ->
  forall acc,
    parseHexFrom acc s
    = acc * 16 ^ Z.of_nat (String.length s) + parseHexFrom 0 s.
Proof.
  induction s as [|c s IH]; intros Hs acc.
  - simpl. lia.
  - cbn [Str.forallb] in Hs. apply andb_true_iff in Hs as [Hc Hs].
    destruct (isLowerHex_digit c Hc) as (d & Hd & _ & _).
    cbn [parseHexFrom String.length]. rewrite Hd.
    rewrite (IH Hs (16 * acc + d)), (IH Hs (16 * 0 + d)), pow16_succ. lia.
Qed.

Lemma parseHexFrom_bound s :
  Str.forallb isLowerHex s = true ->
  0 <= parseHexFrom 0 s < 16 ^ Z.of_nat (String.length s).
Proof.
  induction s as [|c s IH]; intros Hs.
  - simpl. lia.
  - cbn [Str.forallb] in Hs. apply andb_true_iff in Hs as [Hc Hs].
    destruct (isLowerHex_digit c Hc) as (d & Hd & Hr & _).
    cbn [parseHexFrom String.length]. rewrite Hd.
    rewrite (parseHexFrom_acc s Hs), pow16_succ.
    specialize (IH Hs). nia.
Qed.

(** Writing the value read from lowercase digits gives the digits back. *)
Lemma hexw_parseHexFrom s :
  Str.forallb isLowerHex s = true ->
  hexw (String.length s) (parseHexFrom 0 s) = s.
Proof.
  induction s as [|c s IH]; intros Hs; [reflexivity |].
  cbn [Str.forallb] in Hs. apply andb_true_iff in Hs as [Hc Hs].
  destruct (isLowerHex_digit c Hc) as (d & Hd & Hr & Hdc).
  pose proof (parseHexFrom_bound s Hs) as Hb.
  pose proof (pow16_pos (String.length s)) as Hp.
  cbn [parseHexFrom String.length hexw]. rewrite Hd.
  rewrite (parseHexFrom_acc s Hs). replace (16 * 0 + d) with d by lia.
  f_equal.
  - rewrite Z.div_add_l by lia. rewrite (Z.div_small _ _ Hb).
    rewrite Z.add_0_r, Z.mod_small by lia. exact Hdc.
  - rewrite hexw_high. now apply IH.
Qed.

Lemma parseHexFrom_app a b :
  Str.forallb isLowerHex a = true ->
  forall acc, parseHexFrom acc (a +:+ b) = parseHexFrom (parseHexFrom acc a) b.
Proof.
  induction a as [|c a IH]; intros Ha acc; [reflexivity |].
  cbn [Str.forallb] in Ha. apply andb_true_iff in Ha as [Hc Ha].
  destruct (isLowerHex_digit c Hc) as (d & Hd & _ & _).
  rewrite Str.app_cons. cbn [parseHexFrom]. rewrite Hd. now apply IH.
Qed.

Lemma length_take n s :
  (n <= String.length s)%nat -> String.length (Str.take n s) = n.
Proof.
  revert s; induction n as [|n IH]; intros [|c s] H; simpl in *;
    try reflexivity; try lia.
  rewrite IH; [reflexivity | lia].
Qed.

Lemma length_drop n s :
  String.length (Str.drop n s) = (String.length s - n)%nat.
Proof.
  revert s; induction n as [|n IH]; intros [|c s]; simpl; try reflexivity.
  apply IH.
Qed.

(** The value [toBigInt] reads from a valid identifier. *)
Lemma toBigInt_valid s :
  valid s = true ->
  toBigInt s = parseHexFrom 0 s /\ 0 <= parseHexFrom 0 s < 2 ^ 64.
Proof.
  unfold valid. intros Hv. apply andb_true_iff in Hv as [Hlen Hs].
  apply Nat.eqb_eq in Hlen.
  pose proof (parseHexFrom_bound s Hs) as Hb. rewrite Hlen in Hb.
  change (16 ^ Z.of_nat 16) with (2 ^ 64) in Hb. split; [| exact Hb].
  unfold toBigInt, parseInt16.
  assert (Hsplit : s = Str.take 8 s +:+ Str.drop 8 s)
    by (symmetry; apply Str.take_drop).
  assert (Hs' := Hs). rewrite Hsplit, Str.forallb_app in Hs'.
  apply andb_true_iff in Hs' as [Hhi Hlo].
  assert (Hl8 : String.length (Str.drop 8 s) = 8%nat)
    by (rewrite length_drop; lia).
  assert (Htake : Str.take 8 (Str.drop 8 s) = Str.drop 8 s).
  { rewrite <- (Str.app_nil_r (Str.drop 8 s)) at 1.
    rewrite <- Hl8 at 1. apply Str.take_app_length. }
  rewrite Htake.
  rewrite Hsplit at 3. rewrite (parseHexFrom_app _ _ Hhi).
  rewrite (parseHexFrom_acc _ Hlo (parseHexFrom 0 (Str.take 8 s))), Hl8.
  pose proof (parseHexFrom_bound _ Hlo) as Hblo. rewrite Hl8 in Hblo.
  change (16 ^ Z.of_nat 8) with (2 ^ 32) in *.
  rewrite Z.lor_comm, lor_shiftl_add by lia. lia.
Qed.

(** [toHex] and [toBigInt] are inverse to each other between the valid
    identifiers and the values below [2^64]: a valid identifier is the
    notation of the value read from it, and that value is below [2^64]. *)
Theorem toHex_toBigInt (s : string) :
  valid s = true ->
  toHex (toBigInt s) = s /\ 0 <= toBigInt s < 2 ^ 64.
Proof.
  intros Hv. destruct (toBigInt_valid s Hv) as [-> Hb].
  split; [| exact Hb]. rewrite toHex_hexw by assumption.
  unfold valid in Hv. apply andb_true_iff in Hv as [Hlen Hs].
  apply Nat.eqb_eq in Hlen. rewrite <- Hlen. now apply hexw_parseHexFrom.
Qed.

Lemma toHex_toBigInt_witness :
  toBigInt "00000000deadbeef" = 3735928559 /\
  toHex (toBigInt "00000000deadbeef") = "00000000deadbeef".
Proof.
  split; [reflexivity |].
  exact (proj1 (toHex_toBigInt "00000000deadbeef" eq_refl)).
Defined.

End Snowflake.

(** ** [api-registry.ts] *)

Module ApiRegistry.

Section Registry.

(** [CustomStreamSimpleFn]: the streaming functions are opaque values. *)
Context {CustomStreamSimpleFn : Type}.

(** [interface RegisteredCustomApi]; an absent [sourceId] is [None]. *)
Record RegisteredCustomApi : Type := mkRegistered {
  streamSimple : CustomStreamSimpleFn;
  sourceId : option string
}.

(** The module-level [customApiRegistry], threaded explicitly. *)
Local Abbreviation registry := (gmap string RegisteredCustomApi).

Definition registerCustomApi (api : string) (f : CustomStreamSimpleFn)
    (source : option string) (reg : registry) : registry :=
  <[api := {| streamSimple := f; sourceId := source |}]> reg.

Definition getCustomApi (api : string) (reg : registry)
    : option CustomStreamSimpleFn :=
  streamSimple <$> reg !! api.

(** The body of the loop of [unregisterCustomApis] on one visited entry. *)
Definition unregisterStep (source : string) (reg : registry)
    (visited : string * RegisteredCustomApi) : registry :=
  if decide (sourceId visited.2 = Some source)
  then delete visited.1 reg
  else reg.

(** [unregisterCustomApis]: the entries present at the start are visited
    once each (a [Map] iterator survives the deletion of the entry it
    stands on), each visit deleting from the current registry. *)
Definition unregisterCustomApis (source : string) (reg : registry) : registry :=
  foldl (unregisterStep source) reg (map_to_list reg).

Definition clearCustomApis (reg : registry) : registry := ∅.

(** The entry at [k] is due for removal by a visit of [l]. *)
Definition visitedWith (source : string) (k : string)
    (l : list (string * RegisteredCustomApi)) : Prop :=
  Exists (fun p => p.1 = k /\ sourceId p.2 = Some source) l.

Lemma foldl_unregisterStep_lookup source k l :
  forall reg : registry,
    foldl (unregisterStep source) reg l !! k
    = if decide (visitedWith source k l) then None else reg !! k.
Proof.
  unfold visitedWith.
  induction l as [|[a e] l IH]; intros reg; cbn [foldl].
  - destruct (decide _) as [H|_]; [inversion H | reflexivity].
  - rewrite IH. unfold unregisterStep. cbn [fst snd].
    destruct (decide (Exists _ l)) as [Hl|Hl].
    + rewrite decide_True; [reflexivity | now apply Exists_cons_tl].
    + destruct (decide (sourceId e = Some source)) as [He|He].
      * destruct (decide (a = k)) as [->|Hk].
        -- rewrite lookup_delete_eq, decide_True; [reflexivity |].
           apply Exists_cons_hd. now split.
        -- rewrite lookup_delete_ne by assumption.
           rewrite decide_False; [reflexivity |].
           intros H. apply Exists_cons in H as [[? _]|?]; auto.
      * rewrite decide_False; [reflexivity |].
        intros H. apply Exists_cons in H as [[_ ?]|?]; auto.
Qed.

(** What [unregisterCustomApis] leaves at each key. *)
Lemma unregisterCustomApis_lookup source k (reg : registry) :
  unregisterCustomApis source reg !! k
  = match reg !! k with
    | Some e => if decide (sourceId e = Some source) then None else Some e
    | None => None
    end.
Proof.
  unfold unregisterCustomApis. rewrite foldl_unregisterStep_lookup.
  unfold visitedWith.
  destruct (reg !! k) as [e|] eqn:Hk.
  - destruct (decide (sourceId e = Some source)) as [He|He].
    + rewrite decide_True; [reflexivity |].
      apply Exists_exists. exists (k, e). split; [| now split].
      now apply elem_of_map_to_list.
    + rewrite decide_False; [reflexivity |].
      intros H. apply Exists_exists in H as ([a e'] & Hin & Ha & He').
      cbn in Ha, He'. subst a.
      apply elem_of_map_to_list in Hin. congruence.
  - destruct (decide _) as [H|_]; [| reflexivity].
    apply Exists_exists in H as ([a e'] & Hin & Ha & _).
    cbn in Ha. subst a. apply elem_of_map_to_list in Hin. congruence.
Qed.

(** C9.  After [registerCustomApi(a, f, s)], [getCustomApi(a)] returns [f].
    [unregisterCustomApis(source)] removes exactly the entries recorded with
    [sourceId = source]: what remains is the registry filtered on the other
    entries; so at a key whose entry has another or no [sourceId], and at a
    key without entry, [getCustomApi] returns the same before and after. *)
Theorem registry_register_unregister_frame
    (reg : registry) (a : string) (f : CustomStreamSimpleFn)
    (s : option string) (source k : string) :
  getCustomApi a (registerCustomApi a f s reg) = Some f /\
  unregisterCustomApis source reg
  = filter (fun p => sourceId p.2 <> Some source) reg /\
  ((forall e, reg !! k = Some e -> sourceId e <> Some source) ->
   getCustomApi k (unregisterCustomApis source reg) = getCustomApi k reg).
Proof.
  split; [| split].
  - unfold getCustomApi, registerCustomApi. now rewrite lookup_insert_eq.
  - apply map_eq. intros i. rewrite unregisterCustomApis_lookup.
    destruct (reg !! i) as [e|] eqn:Hi.
    + destruct (decide (sourceId e = Some source)) as [He|He]; symmetry.
      * apply map_lookup_filter_None. right. intros e' He'. cbn.
        rewrite Hi in He'. injection He' as <-. tauto.
      * apply map_lookup_filter_Some. now split.
    + symmetry. apply map_lookup_filter_None. now left.
  - intros Hk. unfold getCustomApi. rewrite unregisterCustomApis_lookup.
    destruct (reg !! k) as [e|] eqn:Hi; [| reflexivity].
    rewrite decide_False; [reflexivity | now apply Hk].
Qed.

(** Removing a source twice is removing it once, and the order in which
    two sources are removed does not matter. *)
Theorem unregister_idempotent_commutes (reg : registry) (s1 s2 : string) :
  unregisterCustomApis s1 (unregisterCustomApis s1 reg)
  = unregisterCustomApis s1 reg /\
  unregisterCustomApis s1 (unregisterCustomApis s2 reg)
  = unregisterCustomApis s2 (unregisterCustomApis s1 reg).
Proof.
  split; apply map_eq; intros k; rewrite !unregisterCustomApis_lookup;
    destruct (reg !! k) as [e|]; try reflexivity;
    repeat (destruct (decide _); try reflexivity; try contradiction).
Qed.

(** After [unregisterCustomApis(source)] no entry recorded with that source
    is left, and the call changes nothing exactly when there was none. *)
Theorem unregister_clears_source (reg : registry) (source : string) :
  (forall k e, unregisterCustomApis source reg !! k = Some e ->
               sourceId e <> Some source /\ reg !! k = Some e) /\
  (unregisterCustomApis source reg = reg <->
   forall k e, reg !! k = Some e -> sourceId e <> Some source).
Proof.
  split; [| split].
  - intros k e. rewrite unregisterCustomApis_lookup.
    destruct (reg !! k) as [e'|]; [| discriminate].
    destruct (decide _); [discriminate |]. now intros [= <-].
  - intros Heq k e Hk He.
    assert (H : unregisterCustomApis source reg !! k = Some e)
      by now rewrite Heq.
    rewrite unregisterCustomApis_lookup, Hk in H.
    now rewrite decide_True in H.
  - intros Hall. apply map_eq. intros k.
    rewrite unregisterCustomApis_lookup.
    destruct (reg !! k) as [e|] eqn:Hk; [| reflexivity].
    rewrite decide_False; [reflexivity | now apply (Hall k)].
Qed.

(** An API registered for a source is removed with that source, and
    survives the removal of any other source; an API registered without a
    source survives every [unregisterCustomApis]. *)
Theorem register_then_unregister
    (reg : registry) (a : string) (f : CustomStreamSimpleFn)
    (s : option string) (source : string) :
  getCustomApi a (unregisterCustomApis source (registerCustomApi a f s reg))
  = if decide (s = Some source) then None else Some f.
Proof.
  unfold getCustomApi, registerCustomApi.
  rewrite unregisterCustomApis_lookup, lookup_insert_eq. cbn [sourceId].
  now destruct (decide (s = Some source)).
Qed.

(** Registering an API again replaces the function and the owner: removing
    the former source leaves the new function in place, removing the new
    source removes it; the other APIs are as before. *)
Theorem reregister_moves_ownership
    (reg : registry) (a : string) (f1 f2 : CustomStreamSimpleFn)
    (s1 s2 : string) :
  s1 <> s2 ->
  let reg' := registerCustomApi a f2 (Some s2)
                (registerCustomApi a f1 (Some s1) reg) in
  getCustomApi a reg' = Some f2 /\
  getCustomApi a (unregisterCustomApis s1 reg') = Some f2 /\
  getCustomApi a (unregisterCustomApis s2 reg') = None /\
  (forall b, b <> a -> getCustomApi b reg' = getCustomApi b reg).
Proof.
  intros Hne reg'. subst reg'. unfold getCustomApi, registerCustomApi.
  rewrite !unregisterCustomApis_lookup, !lookup_insert_eq. cbn [sourceId].
  rewrite decide_False by congruence. rewrite decide_True by reflexivity.
  repeat split. intros b Hb. now rewrite !lookup_insert_ne by congruence.
Qed.

End Registry.

Lemma reregister_moves_ownership_witness :
  let reg : gmap string (@RegisteredCustomApi nat) :=
    registerCustomApi "vertex-claude-api" 2%nat (Some "ext-b")
      (registerCustomApi "vertex-claude-api" 1%nat (Some "ext-a") ∅) in
  getCustomApi "vertex-claude-api" (unregisterCustomApis "ext-a" reg)
  = Some 2%nat /\
  getCustomApi "vertex-claude-api" (unregisterCustomApis "ext-b" reg) = None.
Proof.
  intros reg.
  destruct (reregister_moves_ownership (∅ : gmap string (@RegisteredCustomApi nat))
              "vertex-claude-api" 1%nat 2%nat "ext-a" "ext-b")
    as (_ & H1 & H2 & _); [discriminate |].
  split; assumption.
Defined.

(** The frame property on a registry with two sources. *)
Lemma registry_register_unregister_frame_witness :
  let reg : gmap string (@RegisteredCustomApi nat) :=
    registerCustomApi "vertex-claude-api" 1%nat (Some "ext-a")
      (registerCustomApi "local-api" 2%nat None
        (registerCustomApi "other-api" 3%nat (Some "ext-b") ∅)) in
  getCustomApi "vertex-claude-api" (unregisterCustomApis "ext-a" reg) = None /\
  getCustomApi "local-api" (unregisterCustomApis "ext-a" reg) = Some 2%nat /\
  getCustomApi "other-api" (unregisterCustomApis "ext-a" reg) = Some 3%nat.
Proof.
  intros reg.
  assert (Hframe : forall k,
    (forall e, reg !! k = Some e -> sourceId e <> Some "ext-a") ->
    getCustomApi k (unregisterCustomApis "ext-a" reg) = getCustomApi k reg).
  { intros k.
    exact (proj2 (proj2 (registry_register_unregister_frame
                           reg "x" 0%nat None "ext-a" k))). }
  split; [| split].
  - unfold getCustomApi. rewrite unregisterCustomApis_lookup.
    subst reg. unfold registerCustomApi. now rewrite lookup_insert_eq.
  - rewrite Hframe.
    + subst reg. unfold getCustomApi, registerCustomApi.
      rewrite lookup_insert_ne by discriminate. now rewrite lookup_insert_eq.
    + subst reg. unfold registerCustomApi. intros e.
      rewrite lookup_insert_ne by discriminate. rewrite lookup_insert_eq.
      intros [= <-]. discriminate.
  - rewrite Hframe.
    + subst reg. unfold getCustomApi, registerCustomApi.
      rewrite !lookup_insert_ne by discriminate. now rewrite lookup_insert_eq.
    + subst reg. unfold registerCustomApi. intros e.
      rewrite !lookup_insert_ne by discriminate. rewrite lookup_insert_eq.
      intros [= <-]. discriminate.
Defined.

End ApiRegistry.

(** ** [edit.ts] *)

Module Edit.

Local Open Scope Z_scope.

(** *** [String.prototype.split] and [Array.prototype.join] *)

(** One line feed. *)
Definition LF : ascii := "010"%char.
Definition CR : ascii := "013"%char.
Definition nl : string := String LF "".

(** The scan of [split] for a non-empty separator: the piece that ends at
    the next occurrence of [sep] (or at the end of [s]) and the pieces after
    it.  Each step either skips an occurrence or moves one character on, so
    a [fuel] above the length of [s] is never used up. *)
Fixpoint splitScan (fuel : nat) (sep s : string) : string * list string :=
  match fuel with
  | O => (s, [])
  | S f =>
      if String.prefix sep s then
        let '(p, ps) := splitScan f sep (Str.drop (String.length sep) s) in
        (EmptyString, p :: ps)
      else
        match s with
        | EmptyString => (EmptyString, [])
        | String c s' =>
            let '(p, ps) := splitScan f sep s' in (String c p, ps)
        end
  end.

(** [s.split(sep)]: with the empty separator the result is the list of the
    characters of [s] (empty for the empty string). *)
Definition split (s sep : string) : list string :=
  if String.eqb sep "" then
    List.map (fun c => String c "") (list_ascii_of_string s)
  else
    let '(p, ps) := splitScan (S (String.length s)) sep s in p :: ps.

(** [pieces.join(sep)]. *)
Definition join (pieces : list string) (sep : string) : string :=
  String.concat sep pieces.

(** The spec's words for an exact global replacement: scanning left to
    right, every occurrence of [oldText] met is replaced by [newText] and
    the scan goes on after it, so the occurrences replaced do not overlap. *)
Fixpoint replaceEveryOccurrence (fuel : nat) (oldText newText s : string)
    : string :=
  match fuel with
  | O => s
  | S f =>
      if String.prefix oldText s then
        newText +:+ replaceEveryOccurrence f oldText newText
                      (Str.drop (String.length oldText) s)
      else
        match s with
        | EmptyString => EmptyString
        | String c s' => String c (replaceEveryOccurrence f oldText newText s')
        end
  end.

(** The spec's words for the exact occurrence count: the occurrences met by
    the same left-to-right scan. *)
Fixpoint countOccurrences (fuel : nat) (oldText s : string) : Z :=
  match fuel with
  | O => 0
  | S f =>
      if String.prefix oldText s then
        1 + countOccurrences f oldText (Str.drop (String.length oldText) s)
      else
        match s with
        | EmptyString => 0
        | String c s' => countOccurrences f oldText s'
        end
  end.

Lemma join_cons_head c p ps sep :
  join (String c p :: ps) sep = String c (join (p :: ps) sep).
Proof. destruct ps; reflexivity. Qed.

Lemma join_empty_head p ps sep :
  join (EmptyString :: p :: ps) sep = sep +:+ join (p :: ps) sep.
Proof. reflexivity. Qed.

Lemma prefix_nonempty_length sep s :
  sep <> EmptyString -> String.prefix sep s = true ->
  (String.length (Str.drop (String.length sep) s) < String.length s)%nat.
Proof.
  intros Hsep Hp. rewrite (Str.prefix_split sep s Hp) at 2.
  rewrite Str.length_app. destruct sep; [congruence | simpl; lia].
Qed.

(** The pieces of the scan, joined by the separator, are the string. *)
Lemma splitScan_join sep :
  sep <> EmptyString ->
  forall fuel s,
    (String.length s < fuel)%nat ->
    join ((splitScan fuel sep s).1 :: (splitScan fuel sep s).2) sep = s.
Proof.
  intros Hsep. induction fuel as [|f IH]; intros s Hlen; [lia |].
  cbn [splitScan]. destruct (String.prefix sep s) eqn:Hp.
  - pose proof (prefix_nonempty_length sep s Hsep Hp) as Hd.
    specialize (IH (Str.drop (String.length sep) s) ltac:(lia)).
    destruct (splitScan f sep (Str.drop (String.length sep) s)) as [p ps].
    cbn [fst snd] in *. rewrite join_empty_head, IH.
    symmetry. now apply Str.prefix_split.
  - destruct s as [|c s']; [reflexivity |].
    specialize (IH s' ltac:(simpl in Hlen; lia)).
    destruct (splitScan f sep s') as [p ps]. cbn [fst snd] in *.
    now rewrite join_cons_head, IH.
Qed.

(** Joining the pieces by [newText] is the left-to-right replacement. *)
Lemma splitScan_join_replace sep newText :
  forall fuel s,
    join ((splitScan fuel sep s).1 :: (splitScan fuel sep s).2) newText
    = replaceEveryOccurrence fuel sep newText s.
Proof.
  induction fuel as [|f IH]; intros s; [reflexivity |].
  cbn [splitScan replaceEveryOccurrence]. destruct (String.prefix sep s).
  - specialize (IH (Str.drop (String.length sep) s)).
    destruct (splitScan f sep (Str.drop (String.length sep) s)) as [p ps].
    cbn [fst snd] in *. now rewrite join_empty_head, IH.
  - destruct s as [|c s']; [reflexivity |].
    specialize (IH s'). destruct (splitScan f sep s') as [p ps].
    cbn [fst snd] in *. now rewrite join_cons_head, IH.
Qed.

Lemma splitScan_length sep :
  forall fuel s,
    Z.of_nat (List.length (splitScan fuel sep s).2)
    = countOccurrences fuel sep s.
Proof.
  induction fuel as [|f IH]; intros s; [reflexivity |].
  cbn [splitScan countOccurrences]. destruct (String.prefix sep s).
  - specialize (IH (Str.drop (String.length sep) s)).
    destruct (splitScan f sep (Str.drop (String.length sep) s)) as [p ps].
    cbn [fst snd List.length] in *. lia.
  - destruct s as [|c s']; [reflexivity |].
    specialize (IH s'). destruct (splitScan f sep s') as [p ps].
    cbn [fst snd] in *. exact IH.
Qed.

Lemma split_nonempty_sep s sep :
  sep <> EmptyString ->
  split s sep = (splitScan (S (String.length s)) sep s).1
                :: (splitScan (S (String.length s)) sep s).2.
Proof.
  intros Hsep. unfold split.
  destruct (String.eqb_spec sep "") as [->|_]; [congruence |].
  now destruct (splitScan (S (String.length s)) sep s).
Qed.

(** [s.split(sep).join(sep)] is [s], also for the empty separator. *)
Lemma split_join s sep : join (split s sep) sep = s.
Proof.
  destruct (string_dec sep "") as [->|Hsep].
  - unfold split. cbn [String.eqb].
    induction s as [|c s IH]; [reflexivity |].
    cbn [list_ascii_of_string List.map]. unfold join in *.
    destruct s as [|d s]; [reflexivity |].
    cbn [list_ascii_of_string List.map] in *.
    cbn [String.concat]. cbn [String.concat] in IH. now rewrite IH.
  - rewrite split_nonempty_sep by assumption.
    apply splitScan_join; [assumption | lia].
Qed.

(** The total length of the pieces. *)
Fixpoint sumLength (pieces : list string) : nat :=
  match pieces with
  | [] => O
  | p :: ps => (String.length p + sumLength ps)%nat
  end.

Lemma join_cons2 p q ps sep :
  join (p :: q :: ps) sep = p +:+ sep +:+ join (q :: ps) sep.
Proof. reflexivity. Qed.

Lemma length_join pieces sep :
  pieces <> [] ->
  String.length (join pieces sep)
  = (sumLength pieces + (List.length pieces - 1) * String.length sep)%nat.
Proof.
  induction pieces as [|p [|q ps] IH]; intros Hne; [congruence | |].
  - cbn. lia.
  - rewrite join_cons2, !Str.length_app, IH by discriminate.
    cbn [sumLength List.length]. lia.
Qed.

Lemma string_app_inv_head (a x y : string) : a +:+ x = a +:+ y -> x = y.
Proof.
  induction a as [|c a IH]; [trivial |].
  rewrite !Str.app_cons. intros [= H]. now apply IH.
Qed.

(** With at least two pieces, the joined string determines the separator. *)
Lemma join_separator_inj pieces a b :
  (2 <= List.length pieces)%nat ->
  join pieces a = join pieces b -> a = b.
Proof.
  intros Hlen Heq.
  assert (Hab : String.length a = String.length b).
  { pose proof (f_equal String.length Heq) as Hl.
    rewrite !length_join in Hl by (destruct pieces; [simpl in Hlen; lia | discriminate]).
    apply Nat.add_cancel_l in Hl. apply Nat.mul_cancel_l in Hl; [exact Hl | lia]. }
  destruct pieces as [|p [|q ps]]; try (simpl in Hlen; lia).
  rewrite !join_cons2 in Heq. apply string_app_inv_head in Heq.
  apply (f_equal (Str.take (String.length a))) in Heq.
  rewrite Str.take_app_length, Hab, Str.take_app_length in Heq. exact Heq.
Qed.

(** The content with [sep] put between every two adjacent characters. *)
Fixpoint interleave (sep s : string) : string :=
  match s with
  | EmptyString => EmptyString
  | String c s' =>
      match s' with
      | EmptyString => String c EmptyString
      | String _ _ => String c (sep +:+ interleave sep s')
      end
  end.

Lemma split_empty_separator s :
  split s "" = List.map (fun c => String c "") (list_ascii_of_string s).
Proof. reflexivity. Qed.

Lemma join_split_empty_separator sep s :
  join (split s "") sep = interleave sep s.
Proof.
  rewrite split_empty_separator.
  induction s as [|c s IH]; [reflexivity |].
  destruct s as [|d s]; [reflexivity |].
  cbn [list_ascii_of_string List.map interleave] in *.
  rewrite join_cons2, IH. reflexivity.
Qed.

Lemma length_split_empty_separator s :
  List.length (split s "") = String.length s.
Proof.
  rewrite split_empty_separator, List.length_map.
  induction s as [|c s IH]; [reflexivity |]. simpl. now rewrite IH.
Qed.

(** [`${n}`] for an integral number. *)
Definition decimal (n : Z) : string := NilZero.string_of_int (Z.to_int n).

(** *** Values exchanged with [./edit-diff] and [./lsp] *)

(** A located span: [actualText], [startIndex], [confidence]. *)
Record EditMatch : Type := mkEditMatch {
  actualText : string;
  startIndex : nat;
  confidence : Q
}.

(** What [findEditMatch] returns, by the fields [execute] reads; an absent
    field is [None].  [fuzzyMatches] is only handed on to [EditMatchError];
    by spec 3 it is the list of approximate candidates considered. *)
Record EditMatchOutcome : Type := mkOutcome {
  om_match : option EditMatch;
  closest : option EditMatch;
  occurrences : option Z;
  fuzzyMatches : option (list EditMatch)
}.

(** The options object passed to [findEditMatch]. *)
Record MatchOptions : Type := mkOptions {
  allowFuzzyOpt : bool;
  similarityThreshold : Q
}.

(** [generateDiffString]'s result. *)
Record DiffResult : Type := mkDiff {
  diff : string;
  firstChangedLine : option Z
}.

(** The part of [FileDiagnosticsResult] that [execute] reads. *)
Record FileDiagnosticsResult : Type := mkDiagnostics {
  summary : string;
  messages : list string
}.

(** [EditToolDetails]. *)
Record EditToolDetails : Type := mkDetails {
  details_diff : string;
  details_firstChangedLine : option Z;
  details_diagnostics : option FileDiagnosticsResult
}.

(** The value [execute] resolves to: the text of its one content block and
    the details. *)
Record ToolResult : Type := mkResult {
  resultText : string;
  details : EditToolDetails
}.

(** What [execute] throws itself: an [Error] with a message, or an
    [EditMatchError] with its constructor arguments. *)
Inductive Thrown : Type :=
| JsError (message : string)
| EditMatchError (path normalizedOldText : string)
    (closestMatch : option EditMatch) (allowFuzzy : bool)
    (threshold : Q) (fuzzy : option (list EditMatch)).

(** A failed call is either raised by [execute] or comes out of the
    writethrough callback (or of reading the file). *)
Inductive Failure : Type :=
| Engine (e : Thrown)
| Collaborator (reason : string).

Definition notebookError : Thrown :=
  JsError "Cannot edit Jupyter notebooks with the Edit tool. Use the NotebookEdit tool instead.".

Definition notFoundError (path : string) : Thrown :=
  JsError ("File not found: " +:+ path).

Definition occurrencesError (n : Z) (path : string) : Thrown :=
  JsError ("Found " +:+ decimal n +:+ " occurrences of the text in " +:+ path
           +:+ ". The text must be unique. Please provide more context to make it unique, or use all: true to replace all.").

Definition noChangesError (path : string) : Thrown :=
  JsError ("No changes made to " +:+ path
           +:+ ". The replacement produced identical content. This might indicate an issue with special characters or the text not existing as expected.").

(** *** Effects: the file system and the calls made to collaborators *)

Inductive Event : Type :=
| EvResolve (path cwd : string)
| EvExists (absolutePath : string)
| EvRead (absolutePath : string)
| EvWritethrough (absolutePath finalContent : string).

Definition isWritethrough (ev : Event) : bool :=
  match ev with EvWritethrough _ _ => true | _ => false end.

(** The files by absolute path, and the collaborator calls so far, oldest
    first. *)
Record World : Type := mkWorld {
  files : gmap string string;
  trace : list Event
}.

Definition logEvent (ev : Event) (w : World) : World :=
  {| files := files w; trace := trace w ++ [ev] |}.

(** A call returns, throws, or is still running when the fuel given to the
    replace-all loop is used up. *)
Inductive Outcome (A : Type) : Type :=
| Return (a : A)
| Throw (e : Failure)
| OutOfFuel.
Arguments Return {A} a.
Arguments Throw {A} e.
Arguments OutOfFuel {A}.

Definition M (A : Type) : Type := World -> Outcome A * World.

Definition ret {A} (a : A) : M A := fun w => (Return a, w).

Definition throw {A} (e : Thrown) : M A := fun w => (Throw (Engine e), w).

Definition bind {A B} (m : M A) (k : A -> M B) : M B :=
  fun w =>
    match m w with
    | (Return a, w') => k a w'
    | (Throw e, w') => (Throw e, w')
    | (OutOfFuel, w') => (OutOfFuel, w')
    end.

(** A computation without effects. *)
Definition lift {A} (o : Outcome A) : M A := fun w => (o, w).

Notation "x <- m ;; k" := (bind m (fun x => k))
  (at level 100, m at next level, right associativity).
(** *** [createEditTool(cwd, options).execute] *)

Section Orchestrator.

(** The tool's configuration: [cwd], [options.fuzzyMatch ?? true] and
    [options.writethrough ?? writethroughNoop].  The callback may write the
    file; it returns diagnostics, nothing, or fails. *)
Variable cwd : string.
Variable allowFuzzy : bool.
Variable writethrough :
  string -> string -> gmap string string ->
  gmap string string * (string + option FileDiagnosticsResult).

(** What [edit.ts] imports from [./edit-diff] and [./path-utils]: [execute]
    is embedded over any functions of their types.  [Ending] is the type of the value
    [detectLineEnding] hands to [restoreLineEndings]. *)
Variable Ending : Type.
Variable DEFAULT_FUZZY_THRESHOLD : Q.
Variable resolveToCwd : string -> string -> string.
Variable stripBom : string -> string * string.
Variable detectLineEnding : string -> Ending.
Variable normalizeToLF : string -> string.
Variable restoreLineEndings : string -> Ending -> string.
Variable findEditMatch : string -> string -> MatchOptions -> EditMatchOutcome.
Variable generateDiffString : string -> string -> DiffResult.

Definition matchOptions : MatchOptions :=
  {| allowFuzzyOpt := allowFuzzy;
     similarityThreshold := DEFAULT_FUZZY_THRESHOLD |}.

(** [normalizedContent.split(normalizedOldText).length - 1]. *)
Definition exactCount (content oldText : string) : Z :=
  Z.of_nat (List.length (split content oldText)) - 1.

(** [content.substring(0, match.startIndex) + newText +
     content.substring(match.startIndex + match.actualText.length)]. *)
Definition spliceMatch (content : string) (m : EditMatch) (newText : string)
    : string :=
  Str.take (startIndex m) content +:+ newText
  +:+ Str.drop (startIndex m + String.length (actualText m)) content.

(** The match used in all mode: [matchOutcome.match], else the closest
    candidate when fuzzy matching is allowed and it reaches the threshold. *)
Definition selectMatch (matchOutcome : EditMatchOutcome) : option EditMatch :=
  match om_match matchOutcome with
  | Some m => Some m
  | None =>
      if allowFuzzy then
        match closest matchOutcome with
        | Some c =>
            if Qle_bool DEFAULT_FUZZY_THRESHOLD (confidence c)
            then Some c else None
        | None => None
        end
      else None
  end.

(** [new EditMatchError(path, normalizedOldText, matchOutcome.closest, ...)]. *)
Definition noMatchError (path oldText : string) (mo : EditMatchOutcome)
    : Thrown :=
  EditMatchError path oldText (closest mo) allowFuzzy
    DEFAULT_FUZZY_THRESHOLD (fuzzyMatches mo).

(** The [while (true)] loop of all mode, from the current content and
    replacement count; one unit of [fuel] per iteration. *)
Fixpoint fuzzyLoop (fuel : nat) (path oldText newText : string)
    (content : string) (replacementCount : Z) : Outcome (string * Z) :=
  match fuel with
  | O => OutOfFuel
  | S f =>
      let matchOutcome := findEditMatch content oldText matchOptions in
      match selectMatch matchOutcome with
      | None =>
          if replacementCount =? 0
          then Throw (Engine (noMatchError path oldText matchOutcome))
          else Return (content, replacementCount)
      | Some m =>
          fuzzyLoop f path oldText newText
            (spliceMatch content m newText) (replacementCount + 1)
      end
  end.

(** The branch [if (all)]. *)
Definition replaceAllMode (fuel : nat) (path content oldText newText : string)
    : Outcome (string * Z) :=
  let count := exactCount content oldText in
  if 0 <? count then
    Return (join (split content oldText) newText, count)
  else
    fuzzyLoop fuel path oldText newText content 0.

(** [matchOutcome.occurrences && matchOutcome.occurrences > 1]. *)
Definition severalOccurrences (mo : EditMatchOutcome) : option Z :=
  match occurrences mo with
  | Some n => if 1 <? n then Some n else None
  | None => None
  end.

(** The branch [else] (single replacement). *)
Definition replaceSingle (path content oldText newText : string)
    : Outcome (string * Z) :=
  let matchOutcome := findEditMatch content oldText matchOptions in
  match severalOccurrences matchOutcome with
  | Some n => Throw (Engine (occurrencesError n path))
  | None =>
      match om_match matchOutcome with
      | None => Throw (Engine (noMatchError path oldText matchOutcome))
      | Some m => Return (spliceMatch content m newText, 1)
      end
  end.

(** Lines 77 to 149: the new content and the replacement count. *)
Definition replacePhase (fuel : nat) (path content oldText newText : string)
    (all : bool) : Outcome (string * Z) :=
  if all then replaceAllMode fuel path content oldText newText
  else replaceSingle path content oldText newText.

(** The collaborator calls. *)
Definition resolvePath (path : string) : M string :=
  fun w => (Return (resolveToCwd path cwd), logEvent (EvResolve path cwd) w).

Definition fileExists (absolutePath : string) : M bool :=
  fun w => (Return (bool_decide (is_Some (files w !! absolutePath))),
            logEvent (EvExists absolutePath) w).

(** [file.text()].  The file system is one map, consulted by [exists()]
    and by this read alike: the read of a file that was just found returns
    its content.  A read that rejects although [exists()] answered true is
    outside this model, so nothing is stated here about failures other
    than those [execute] raises itself. *)
Definition fileText (absolutePath : string) : M string :=
  fun w =>
    match files w !! absolutePath with
    | Some raw => (Return raw, logEvent (EvRead absolutePath) w)
    | None => (Throw (Collaborator "ENOENT"), logEvent (EvRead absolutePath) w)
    end.

Definition callWritethrough (absolutePath finalContent : string)
    : M (option FileDiagnosticsResult) :=
  fun w =>
    let '(files', r) := writethrough absolutePath finalContent (files w) in
    let w' := {| files := files';
                 trace := trace w ++ [EvWritethrough absolutePath finalContent] |} in
    match r with
    | inl reason => (Throw (Collaborator reason), w')
    | inr diagnostics => (Return diagnostics, w')
    end.

(** The result text: the summary and the forwarded diagnostics. *)
Definition buildResultText (path : string) (replacementCount : Z)
    (diagnostics : option FileDiagnosticsResult) : string :=
  let text :=
    if 1 <? replacementCount
    then "Successfully replaced " +:+ decimal replacementCount
         +:+ " occurrences in " +:+ path +:+ "."
    else "Successfully replaced text in " +:+ path +:+ "." in
  match diagnostics with
  | Some d =>
      match messages d with
      | [] => text
      | _ :: _ =>
          text +:+ nl +:+ nl +:+ "LSP Diagnostics (" +:+ summary d +:+ "):"
          +:+ nl +:+ join (List.map (fun m => "  " +:+ m) (messages d)) nl
      end
  | None => text
  end.

(** [execute(_toolCallId, { path, oldText, newText, all }, signal)]. *)
Definition execute (fuel : nat) (path oldText newText : string) (all : bool)
    : M ToolResult :=
  if Str.endsWith path ".ipynb" then throw notebookError
  else
    absolutePath <- resolvePath path ;;
    present <- fileExists absolutePath ;;
    if negb present then throw (notFoundError path)
    else
      rawContent <- fileText absolutePath ;;
      let '(bom, content) := stripBom rawContent in
      let originalEnding := detectLineEnding content in
      let normalizedContent := normalizeToLF content in
      let normalizedOldText := normalizeToLF oldText in
      let normalizedNewText := normalizeToLF newText in
      replaced <- lift (replacePhase fuel path normalizedContent
                          normalizedOldText normalizedNewText all) ;;
      let '(normalizedNewContent, replacementCount) := replaced in
      if String.eqb normalizedContent normalizedNewContent
      then throw (noChangesError path)
      else
        let finalContent :=
          bom +:+ restoreLineEndings normalizedNewContent originalEnding in
        diagnostics <- callWritethrough absolutePath finalContent ;;
        let diffResult :=
          generateDiffString normalizedContent normalizedNewContent in
        ret {| resultText := buildResultText path replacementCount diagnostics;
               details :=
                 {| details_diff := diff diffResult;
                    details_firstChangedLine := firstChangedLine diffResult;
                    details_diagnostics := diagnostics |} |}.

(** The world once the path is resolved and the file found and read. *)
Definition afterRead (path : string) (w : World) : World :=
  let absolutePath := resolveToCwd path cwd in
  logEvent (EvRead absolutePath)
    (logEvent (EvExists absolutePath) (logEvent (EvResolve path cwd) w)).

(** Lines 158 to 187: the write and the result. *)
Definition writeAndReport (path bom : string) (originalEnding : Ending)
    (normalizedContent normalizedNewContent : string) (replacementCount : Z)
    : M ToolResult :=
  diagnostics <- callWritethrough (resolveToCwd path cwd)
                   (bom +:+ restoreLineEndings normalizedNewContent
                              originalEnding) ;;
  ret {| resultText := buildResultText path replacementCount diagnostics;
         details :=
           {| details_diff :=
                diff (generateDiffString normalizedContent normalizedNewContent);
              details_firstChangedLine :=
                firstChangedLine
                  (generateDiffString normalizedContent normalizedNewContent);
              details_diagnostics := diagnostics |} |}.

Lemma execute_notebook fuel path oldText newText all w :
  Str.endsWith path ".ipynb" = true ->
  execute fuel path oldText newText all w = (Throw (Engine notebookError), w).
Proof. intros H. unfold execute. now rewrite H. Qed.

Lemma execute_missing fuel path oldText newText all w :
  Str.endsWith path ".ipynb" = false ->
  files w !! resolveToCwd path cwd = None ->
  execute fuel path oldText newText all w
  = (Throw (Engine (notFoundError path)),
     logEvent (EvExists (resolveToCwd path cwd))
       (logEvent (EvResolve path cwd) w)).
Proof.
  intros Hn Hf. unfold execute. rewrite Hn.
  unfold bind, resolvePath, fileExists. cbn [files logEvent].
  rewrite Hf. rewrite bool_decide_false by (intros [? ?]; discriminate).
  reflexivity.
Qed.

(** Past the two preconditions, [execute] is the replace phase followed by
    the no-change check, the write and the report. *)
Lemma execute_present fuel path oldText newText all w raw :
  Str.endsWith path ".ipynb" = false ->
  files w !! resolveToCwd path cwd = Some raw ->
  execute fuel path oldText newText all w
  = let normalizedContent := normalizeToLF (stripBom raw).2 in
    match replacePhase fuel path normalizedContent (normalizeToLF oldText)
            (normalizeToLF newText) all with
    | Return (normalizedNewContent, replacementCount) =>
        if String.eqb normalizedContent normalizedNewContent
        then (Throw (Engine (noChangesError path)), afterRead path w)
        else writeAndReport path (stripBom raw).1
               (detectLineEnding (stripBom raw).2)
               normalizedContent normalizedNewContent replacementCount
               (afterRead path w)
    | Throw e => (Throw e, afterRead path w)
    | OutOfFuel => (OutOfFuel, afterRead path w)
    end.
Proof.
  intros Hn Hf. unfold execute. rewrite Hn.
  unfold bind at 1. unfold resolvePath at 1.
  unfold bind at 1. unfold fileExists at 1. cbn [files logEvent].
  rewrite Hf. rewrite bool_decide_true by eauto. cbn [negb].
  unfold bind at 1. unfold fileText at 1. cbn [files logEvent].
  rewrite Hf. fold (logEvent (EvResolve path cwd) w).
  fold (logEvent (EvExists (resolveToCwd path cwd))
          (logEvent (EvResolve path cwd) w)).
  fold (logEvent (EvRead (resolveToCwd path cwd))
          (logEvent (EvExists (resolveToCwd path cwd))
             (logEvent (EvResolve path cwd) w))).
  fold (afterRead path w).
  destruct (stripBom raw) as [bom content]. cbn [fst snd]. cbv zeta.
  unfold bind at 1. unfold lift.
  destruct (replacePhase fuel path (normalizeToLF content)
              (normalizeToLF oldText) (normalizeToLF newText) all)
    as [[c' k]|e|]; try reflexivity.
  now destruct (String.eqb (normalizeToLF content) c').
Qed.

Lemma afterRead_files path w : files (afterRead path w) = files w.
Proof. reflexivity. Qed.

Lemma afterRead_trace path w :
  trace (afterRead path w)
  = (trace w ++ [EvResolve path cwd; EvExists (resolveToCwd path cwd);
                 EvRead (resolveToCwd path cwd)])%list.
Proof. unfold afterRead, logEvent. cbn. now rewrite <- !List.app_assoc. Qed.


(** The iterations of the all-mode loop as a relation: from content [c] and
    count [n] the loop leaves through [break] or [throw] at content [c']
    and count [n'], after [i] replacements. *)
Inductive LoopRun (oldText newText : string)
    : nat -> string -> Z -> string -> Z -> Prop :=
| LoopStop c n :
    selectMatch (findEditMatch c oldText matchOptions) = None ->
    LoopRun oldText newText 0 c n c n
| LoopStep i c n m c' n' :
    selectMatch (findEditMatch c oldText matchOptions) = Some m ->
    LoopRun oldText newText i (spliceMatch c m newText) (n + 1) c' n' ->
    LoopRun oldText newText (S i) c n c' n'.

(** The errors [execute] raises itself, for a call on [path]. *)
Definition engineError (path : string) (e : Thrown) : Prop :=
  e = notebookError \/
  e = notFoundError path \/
  (exists n, 1 < n /\ e = occurrencesError n path) \/
  (exists oldText mo, e = noMatchError path oldText mo) \/
  e = noChangesError path.

(** The events of a run that never reached the writethrough callback. *)
Definition noWritethrough (evs : list Event) : Prop :=
  List.forallb (fun ev => negb (isWritethrough ev)) evs = true.

Lemma LoopRun_count oldText newText i c n c' n' :
  LoopRun oldText newText i c n c' n' -> n' = n + Z.of_nat i.
Proof. induction 1; lia. Qed.

Lemma LoopRun_stop oldText newText i c n c' n' :
  LoopRun oldText newText i c n c' n' ->
  selectMatch (findEditMatch c' oldText matchOptions) = None.
Proof. induction 1; assumption. Qed.

(** A loop that made a replacement ends on another content than it began. *)
Lemma LoopRun_changes oldText newText i c n c' n' :
  LoopRun oldText newText (S i) c n c' n' -> c' <> c.
Proof.
  intros H. pose proof (LoopRun_stop _ _ _ _ _ _ _ H) as Hstop.
  inversion H; subst. congruence.
Qed.

Lemma fuzzyLoop_of_run path oldText newText i c n c' n' :
  LoopRun oldText newText i c n c' n' ->
  forall fuel, (i < fuel)%nat ->
    fuzzyLoop fuel path oldText newText c n
    = if n' =? 0
      then Throw (Engine (noMatchError path oldText
                            (findEditMatch c' oldText matchOptions)))
      else Return (c', n').
Proof.
  induction 1 as [c n Hsel | i c n m c' n' Hsel Hrun IH]; intros fuel Hfuel.
  - destruct fuel as [|f]; [lia |]. cbn [fuzzyLoop]. cbv zeta. now rewrite Hsel.
  - destruct fuel as [|f]; [lia |]. cbn [fuzzyLoop]. cbv zeta. rewrite Hsel.
    apply IH. lia.
Qed.

Lemma fuzzyLoop_halts_run path oldText newText :
  forall fuel c n,
    fuzzyLoop fuel path oldText newText c n <> OutOfFuel ->
    exists i c' n', (i < fuel)%nat /\ LoopRun oldText newText i c n c' n'.
Proof.
  induction fuel as [|f IH]; intros c n Hhalt; [now cbn in Hhalt |].
  cbn [fuzzyLoop] in Hhalt. cbv zeta in Hhalt.
  destruct (selectMatch (findEditMatch c oldText matchOptions)) as [m|] eqn:Hsel.
  - destruct (IH _ _ Hhalt) as (i & c' & n' & Hi & Hrun).
    exists (S i), c', n'. split; [lia |]. now apply LoopStep with m.
  - exists 0%nat, c, n. split; [lia |]. now apply LoopStop.
Qed.

(** When the replacement leaves the content as it was, the next iteration
    meets the same match again, and so on. *)
Lemma fuzzyLoop_fixed_point path oldText newText c m :
  selectMatch (findEditMatch c oldText matchOptions) = Some m ->
  spliceMatch c m newText = c ->
  forall fuel n, fuzzyLoop fuel path oldText newText c n = OutOfFuel.
Proof.
  intros Hsel Hfix. induction fuel as [|f IH]; intros n; [reflexivity |].
  cbn [fuzzyLoop]. cbv zeta. rewrite Hsel, Hfix. apply IH.
Qed.

Lemma fuzzyLoop_throws path oldText newText :
  forall fuel c n f,
    fuzzyLoop fuel path oldText newText c n = Throw f ->
    exists mo, f = Engine (noMatchError path oldText mo).
Proof.
  induction fuel as [|fuel IH]; intros c n f H; [discriminate |].
  cbn [fuzzyLoop] in H. cbv zeta in H.
  destruct (selectMatch _) as [m|]; [now apply IH in H |].
  destruct (n =? 0); [| discriminate].
  injection H as <-. eauto.
Qed.

Lemma severalOccurrences_gt mo n : severalOccurrences mo = Some n -> 1 < n.
Proof.
  unfold severalOccurrences. destruct (occurrences mo) as [k|]; [| discriminate].
  destruct (Z.ltb_spec 1 k); [| discriminate]. now intros [= <-].
Qed.

Lemma replacePhase_throws fuel path content oldText newText all f :
  replacePhase fuel path content oldText newText all = Throw f ->
  exists e, f = Engine e /\ engineError path e.
Proof.
  unfold replacePhase, replaceAllMode, replaceSingle, engineError.
  destruct all.
  - destruct (0 <? exactCount content oldText); [discriminate |].
    intros H. apply fuzzyLoop_throws in H as [mo ->]. eauto 10.
  - destruct (severalOccurrences _) as [n|] eqn:Hn.
    + apply severalOccurrences_gt in Hn. intros [= <-]. eauto 10.
    + destruct (om_match _); [discriminate |]. intros [= <-]. eauto 10.
Qed.

(** C7.  A path that ends in [.ipynb] is refused at once: [execute] throws
    the notebook error and the world is as before, with no path resolved,
    no existence check, no read and no write; this is so whether or not a
    file exists at the path, and the error is not the not-found error. *)
Theorem notebook_rejected_before_io
    (fuel : nat) (path oldText newText : string) (all : bool) (w : World) :
  Str.endsWith path ".ipynb" = true ->
  execute fuel path oldText newText all w = (Throw (Engine notebookError), w)
  /\ notebookError <> notFoundError path.
Proof.
  intros H. split; [now apply execute_notebook | discriminate].
Qed.

(** C8.  When [execute] fails with an error of its own (notebook, not
    found, several occurrences, no match, no change), the files are as
    before and the calls it made do not include the writethrough
    callback. *)
Theorem engine_error_leaves_file
    (fuel : nat) (path oldText newText : string) (all : bool)
    (w w' : World) (e : Thrown) :
  execute fuel path oldText newText all w = (Throw (Engine e), w') ->
  engineError path e /\
  files w' = files w /\
  exists evs, trace w' = (trace w ++ evs)%list /\ noWritethrough evs.
Proof.
  intros Hrun.
  destruct (Str.endsWith path ".ipynb") eqn:Hn.
  - rewrite execute_notebook in Hrun by assumption.
    injection Hrun as <- <-. unfold engineError.
    split; [tauto |]. split; [reflexivity |].
    exists []. now rewrite List.app_nil_r.
  - destruct (files w !! resolveToCwd path cwd) as [raw|] eqn:Hf.
    + rewrite (execute_present _ _ _ _ _ _ raw) in Hrun by assumption.
      cbv zeta in Hrun.
      assert (Hread : files (afterRead path w) = files w /\
                exists evs, trace (afterRead path w) = (trace w ++ evs)%list
                            /\ noWritethrough evs).
      { split; [reflexivity |]. rewrite afterRead_trace.
        eexists. split; reflexivity. }
      destruct (replacePhase _ _ _ _ _ _) as [[c' k]|f|] eqn:Hphase.
      * destruct (String.eqb _ c').
        -- injection Hrun as <- <-. unfold engineError. tauto.
        -- unfold writeAndReport, bind, callWritethrough, ret in Hrun.
           destruct (writethrough _ _ _) as [files' [reason|d]];
             discriminate.
      * injection Hrun as -> <-.
        apply replacePhase_throws in Hphase as (e' & [= <-] & He). tauto.
      * discriminate.
    + rewrite execute_missing in Hrun by assumption.
      injection Hrun as <- <-. unfold engineError.
      split; [tauto |]. split; [reflexivity |].
      exists [EvResolve path cwd; EvExists (resolveToCwd path cwd)].
      unfold logEvent. cbn. now rewrite <- List.app_assoc.
Qed.

(** C2.  Once the replacement is made, in either mode: if the new content
    equals the normalized content, [execute] throws the no-change error
    (with nothing written); and whenever [execute] returns a result the new
    content differs from the normalized content. *)
Theorem unchanged_content_is_an_error
    (fuel : nat) (path oldText newText : string) (all : bool)
    (w : World) (raw newContent : string) (count : Z) :
  Str.endsWith path ".ipynb" = false ->
  files w !! resolveToCwd path cwd = Some raw ->
  replacePhase fuel path (normalizeToLF (stripBom raw).2)
    (normalizeToLF oldText) (normalizeToLF newText) all
  = Return (newContent, count) ->
  (newContent = normalizeToLF (stripBom raw).2 ->
   execute fuel path oldText newText all w
   = (Throw (Engine (noChangesError path)), afterRead path w)) /\
  (forall res w',
     execute fuel path oldText newText all w = (Return res, w') ->
     newContent <> normalizeToLF (stripBom raw).2).
Proof.
  intros Hn Hf Hphase.
  rewrite (execute_present _ _ _ _ _ _ raw) by assumption.
  cbv zeta. rewrite Hphase. split.
  - intros ->. now rewrite String.eqb_refl.
  - intros res w' Hrun Heq. subst newContent.
    rewrite String.eqb_refl in Hrun. discriminate.
Qed.

(** C3.  In all mode, when the exact occurrence count [n] of the normalized
    search text in the normalized content is positive, the new content is
    the content with each of the [n] occurrences that separate its pieces
    replaced by the normalized replacement text, and the replacement count
    is [n]; for a non-empty search text these are the non-overlapping
    occurrences met from left to right.  This holds for every match engine
    and every bound on the loop, zero included: neither is entered.
    [execute] then goes on to the no-change check and the write. *)
Theorem replace_all_exact
    (fuel : nat) (path oldText newText : string) (w : World) (raw : string) :
  Str.endsWith path ".ipynb" = false ->
  files w !! resolveToCwd path cwd = Some raw ->
  let content := normalizeToLF (stripBom raw).2 in
  let old := normalizeToLF oldText in
  let new := normalizeToLF newText in
  0 < exactCount content old ->
  replacePhase fuel path content old new true
  = Return (join (split content old) new, exactCount content old) /\
  join (split content old) old = content /\
  (old <> EmptyString ->
   join (split content old) new
   = replaceEveryOccurrence (S (String.length content)) old new content /\
   exactCount content old
   = countOccurrences (S (String.length content)) old content) /\
  execute fuel path oldText newText true w
  = if String.eqb content (join (split content old) new)
    then (Throw (Engine (noChangesError path)), afterRead path w)
    else writeAndReport path (stripBom raw).1
           (detectLineEnding (stripBom raw).2) content
           (join (split content old) new) (exactCount content old)
           (afterRead path w).
Proof.
  intros Hn Hf content old new Hcount.
  assert (Hphase : replacePhase fuel path content old new true
                   = Return (join (split content old) new,
                             exactCount content old)).
  { unfold replacePhase, replaceAllMode. cbv zeta.
    now destruct (Z.ltb_spec 0 (exactCount content old)); [| lia]. }
  split; [exact Hphase |]. split; [apply split_join |]. split.
  - intros Hold. unfold exactCount.
    rewrite split_nonempty_sep by assumption. split.
    + apply splitScan_join_replace.
    + cbn [List.length]. rewrite <- splitScan_length. lia.
  - rewrite (execute_present _ _ _ _ _ _ raw) by assumption.
    cbv zeta. fold content old new. now rewrite Hphase.
Qed.

(** C5, as the code has it.  The loop has no iteration cap: it leaves
    exactly when some iteration finds no qualifying match in the current
    content, after as many replacements as matches were found before; and
    from a content that a replacement leaves unchanged it never leaves. *)
Theorem fuzzyLoop_halts_iff_no_match
    (fuel : nat) (path oldText newText content : string) (count : Z) :
  (fuzzyLoop fuel path oldText newText content count <> OutOfFuel <->
   exists i c' n',
     (i < fuel)%nat /\ LoopRun oldText newText i content count c' n') /\
  (forall m,
     selectMatch (findEditMatch content oldText matchOptions) = Some m ->
     spliceMatch content m newText = content ->
     fuzzyLoop fuel path oldText newText content count = OutOfFuel).
Proof.
  split; [split |].
  - apply fuzzyLoop_halts_run.
  - intros (i & c' & n' & Hi & Hrun).
    rewrite (fuzzyLoop_of_run path _ _ _ _ _ _ _ Hrun fuel Hi).
    now destruct (n' =? 0).
  - intros m Hsel Hfix. now apply fuzzyLoop_fixed_point with m.
Qed.

(** *** Further properties of [execute] *)

Lemma fuzzyLoop_returns_positive path oldText newText :
  forall fuel c n c' k,
    0 <= n ->
    fuzzyLoop fuel path oldText newText c n = Return (c', k) -> 1 <= k.
Proof.
  induction fuel as [|f IH]; intros c n c' k Hn H; [discriminate |].
  cbn [fuzzyLoop] in H. cbv zeta in H.
  destruct (selectMatch _) as [m|].
  - apply (IH (spliceMatch c m newText) (n + 1) c' k); [lia | exact H].
  - destruct (Z.eqb_spec n 0); [discriminate |].
    injection H as _ <-. lia.
Qed.

(** A successful replace phase made at least one replacement, and exactly
    one in single mode. *)
Theorem replacement_count_positive
    (fuel : nat) (path content oldText newText : string) (all : bool)
    (newContent : string) (count : Z) :
  replacePhase fuel path content oldText newText all
  = Return (newContent, count) ->
  1 <= count /\ (all = false -> count = 1).
Proof.
  unfold replacePhase, replaceAllMode, replaceSingle. cbv zeta.
  destruct all.
  - destruct (Z.ltb_spec 0 (exactCount content oldText)) as [Hpos|Hnone].
    + intros [= _ <-]. split; [lia | discriminate].
    + intros Hloop. apply fuzzyLoop_returns_positive in Hloop; [| lia].
      split; [exact Hloop | discriminate].
  - destruct (severalOccurrences _); [discriminate |].
    destruct (om_match _); [| discriminate].
    intros [= _ <-]. split; [lia | reflexivity].
Qed.

Lemma replacePhase_throws_kind fuel path content oldText newText all f :
  replacePhase fuel path content oldText newText all = Throw f ->
  (exists n, f = Engine (occurrencesError n path)) \/
  (exists mo, f = Engine (noMatchError path oldText mo)).
Proof.
  unfold replacePhase, replaceAllMode, replaceSingle.
  destruct all.
  - destruct (0 <? exactCount content oldText); [discriminate |].
    intros H. apply fuzzyLoop_throws in H. now right.
  - destruct (severalOccurrences _) as [n|].
    + intros [= <-]. left. eauto.
    + destruct (om_match _); [discriminate |]. intros [= <-]. right. eauto.
Qed.

(** For a path that is no notebook, [execute] throws the not-found error
    exactly when no file exists at the resolved path; it has then resolved
    the path and asked for the file, and read nothing. *)
Theorem not_found_iff_missing
    (fuel : nat) (path oldText newText : string) (all : bool) (w : World) :
  Str.endsWith path ".ipynb" = false ->
  ((execute fuel path oldText newText all w).1
   = Throw (Engine (notFoundError path))
   <-> files w !! resolveToCwd path cwd = None) /\
  (files w !! resolveToCwd path cwd = None ->
   (execute fuel path oldText newText all w).2
   = {| files := files w;
        trace := trace w ++ [EvResolve path cwd;
                             EvExists (resolveToCwd path cwd)] |}).
Proof.
  intros Hn. split; [split |].
  - destruct (files w !! resolveToCwd path cwd) as [raw|] eqn:Hf;
      [| reflexivity].
    rewrite (execute_present _ _ _ _ _ _ raw) by assumption. cbv zeta.
    destruct (replacePhase _ _ _ _ _ _) as [[c' k]|f|] eqn:Hphase.
    + destruct (String.eqb _ c').
      * cbn [fst]. intros H. vm_compute in H. discriminate.
      * unfold writeAndReport, bind, callWritethrough, ret.
        destruct (writethrough _ _ _) as [files' [reason|d]]; discriminate.
    + cbn [fst].
      apply replacePhase_throws_kind in Hphase as [[n ->]|[mo ->]];
        intros H; [vm_compute in H |]; discriminate.
    + discriminate.
  - intros Hf. now rewrite execute_missing.
  - intros Hf. rewrite execute_missing by assumption.
    unfold logEvent. cbn. now rewrite <- List.app_assoc.
Qed.

(** When [execute] returns a result, the file existed, the replacement
    changed the normalized content, and the writethrough callback was
    called exactly once, last, with the marker followed by the new content
    in the original line endings; the files are as the callback left them
    and the result carries the count and the callback's diagnostics. *)
Theorem success_writes_once
    (fuel : nat) (path oldText newText : string) (all : bool)
    (w w' : World) (res : ToolResult) :
  execute fuel path oldText newText all w = (Return res, w') ->
  exists raw newContent count diagnostics,
    let content := normalizeToLF (stripBom raw).2 in
    let finalContent :=
      (stripBom raw).1
      +:+ restoreLineEndings newContent (detectLineEnding (stripBom raw).2) in
    files w !! resolveToCwd path cwd = Some raw /\
    replacePhase fuel path content (normalizeToLF oldText)
      (normalizeToLF newText) all = Return (newContent, count) /\
    newContent <> content /\
    writethrough (resolveToCwd path cwd) finalContent (files w)
    = (files w', inr diagnostics) /\
    trace w'
    = (trace w ++ [EvResolve path cwd; EvExists (resolveToCwd path cwd);
                   EvRead (resolveToCwd path cwd);
                   EvWritethrough (resolveToCwd path cwd) finalContent])%list /\
    resultText res = buildResultText path count diagnostics /\
    details_diagnostics (details res) = diagnostics.
Proof.
  intros Hrun.
  destruct (Str.endsWith path ".ipynb") eqn:Hn;
    [rewrite execute_notebook in Hrun by assumption; discriminate |].
  destruct (files w !! resolveToCwd path cwd) as [raw|] eqn:Hf;
    [| rewrite execute_missing in Hrun by assumption; discriminate].
  rewrite (execute_present _ _ _ _ _ _ raw) in Hrun by assumption.
  cbv zeta in Hrun.
  destruct (replacePhase _ _ _ _ _ _) as [[c' k]|f|] eqn:Hphase;
    try discriminate.
  destruct (String.eqb_spec (normalizeToLF (stripBom raw).2) c') as [E|E];
    [discriminate |].
  unfold writeAndReport, bind, callWritethrough, ret in Hrun.
  rewrite afterRead_files, afterRead_trace in Hrun.
  destruct (writethrough _ _ _) as [files' [reason|d]] eqn:Hw;
    [discriminate |].
  injection Hrun as <- <-.
  exists raw, c', k, d. cbv zeta. cbn [files trace resultText details
                                       details_diagnostics].
  repeat split; try assumption; try congruence.
  now rewrite <- List.app_assoc.
Qed.

(** [spliceMatch] replaces the span of the match and nothing else: what
    precedes and what follows it in the content is kept.  A start offset
    beyond the end of the content appends the new text. *)
Theorem spliceMatch_keeps_context
    (before after newText : string) (m : EditMatch) :
  (startIndex m = String.length before ->
   spliceMatch (before +:+ actualText m +:+ after) m newText
   = before +:+ newText +:+ after) /\
  (forall content, (String.length content <= startIndex m)%nat ->
     spliceMatch content m newText = content +:+ newText).
Proof.
  split.
  - intros Hm. unfold spliceMatch. rewrite Hm, Str.take_app_length.
    f_equal. f_equal.
    rewrite <- Str.length_app, <- Str.app_assoc.
    apply Str.drop_app_length.
  - intros content Hlen. unfold spliceMatch.
    assert (Htake : forall n s, (String.length s <= n)%nat -> Str.take n s = s).
    { induction n as [|n IH]; intros [|c s] H; simpl in *;
        try reflexivity; try lia. f_equal. apply IH. lia. }
    assert (Hdrop : forall n s, (String.length s <= n)%nat -> Str.drop n s = "").
    { induction n as [|n IH]; intros [|c s] H; simpl in *;
        try reflexivity; try lia. apply IH. lia. }
    rewrite Htake, Hdrop by lia. now rewrite Str.app_nil_r.
Qed.

(** In all mode with an exact occurrence, the no-change error is thrown
    exactly when the normalized replacement text equals the normalized
    search text. *)
Theorem all_mode_exact_unchanged_iff
    (fuel : nat) (path oldText newText : string) (w : World) (raw : string) :
  Str.endsWith path ".ipynb" = false ->
  files w !! resolveToCwd path cwd = Some raw ->
  0 < exactCount (normalizeToLF (stripBom raw).2) (normalizeToLF oldText) ->
  ((execute fuel path oldText newText true w).1
   = Throw (Engine (noChangesError path))
   <-> normalizeToLF newText = normalizeToLF oldText).
Proof.
  intros Hn Hf Hcount.
  rewrite (execute_present _ _ _ _ _ _ raw) by assumption. cbv zeta.
  set (content := normalizeToLF (stripBom raw).2) in *.
  set (old := normalizeToLF oldText) in *.
  set (new := normalizeToLF newText).
  unfold replacePhase, replaceAllMode. cbv zeta.
  destruct (Z.ltb_spec 0 (exactCount content old)) as [_|?]; [| lia].
  destruct (String.eqb_spec content (join (split content old) new)) as [E|E].
  - split; [intros _ | reflexivity].
    apply (join_separator_inj (split content old)).
    + unfold exactCount in Hcount. lia.
    + now rewrite split_join.
  - split.
    + unfold writeAndReport, bind, callWritethrough, ret.
      destruct (writethrough _ _ _) as [files' [reason|d]]; discriminate.
    + intros Heq. exfalso. apply E. rewrite Heq. symmetry. apply split_join.
Qed.

(** The empty search text in all mode: it counts one occurrence between
    every two adjacent characters, so on a content of at least two
    characters the replacement text is put between the characters, and on a
    shorter content the call goes on to the approximate loop. *)
Theorem all_mode_empty_search
    (fuel : nat) (path content newText : string) :
  exactCount content "" = Z.of_nat (String.length content) - 1 /\
  ((2 <= String.length content)%nat ->
   replacePhase fuel path content "" newText true
   = Return (interleave newText content,
             Z.of_nat (String.length content) - 1)) /\
  ((String.length content <= 1)%nat ->
   replacePhase fuel path content "" newText true
   = fuzzyLoop fuel path "" newText content 0).
Proof.
  assert (Hc : exactCount content "" = Z.of_nat (String.length content) - 1).
  { unfold exactCount. now rewrite length_split_empty_separator. }
  split; [exact Hc |].
  unfold replacePhase, replaceAllMode. cbv zeta. rewrite Hc. split; intros Hlen.
  - destruct (Z.ltb_spec 0 (Z.of_nat (String.length content) - 1)); [| lia].
    now rewrite join_split_empty_separator.
  - now destruct (Z.ltb_spec 0 (Z.of_nat (String.length content) - 1)); [lia |].
Qed.

End Orchestrator.

(** *** The Match Engine *)

Section MatchEngine.

(** Spec 4.2 leaves open the normalized distance between
    whitespace-collapsed texts, the tolerance on the window length, the
    diagnostic floor and the cap on the candidate list; they are taken as
    given. *)
Variable distance : string -> string -> Q.
Variable windowTolerance : nat.
Variable diagnosticFloor : Q.
Variable candidateCap : nat.

(** Space, tab, line feed and carriage return. *)
Definition isWhitespace (c : ascii) : bool :=
  let n := nat_of_ascii c in
  ((n =? 32) || (n =? 9) || (n =? 10) || (n =? 13))%nat.

(** Modelled from the spec: part of the missing [findEditMatch].  Spec 4.2:
    runs of whitespace collapse to a single separator before comparison. *)
Fixpoint collapseWhitespace (inRun : bool) (s : string) : string :=
  match s with
  | EmptyString => EmptyString
  | String c s' =>
      if isWhitespace c then
        if inRun then collapseWhitespace true s'
        else String " "%char (collapseWhitespace true s')
      else String c (collapseWhitespace false s')
  end.

(** Modelled from the spec: part of the missing [findEditMatch].  Spec 4.2:
    the similarity of a span to the fragment, from a normalized distance
    over the whitespace-collapsed texts. *)
Definition similarity (span fragment : string) : Q :=
  1 - distance (collapseWhitespace false span)
        (collapseWhitespace false fragment).

(** Modelled from the spec: part of the missing [findEditMatch].  Spec 4.2:
    the spans of the sliding window, at every start offset from left to
    right, with the lengths within the tolerance of the fragment's length. *)
Definition windowLengths (fragment : string) : list nat :=
  List.filter (fun len => (1 <=? len)%nat)
    (List.seq (String.length fragment - windowTolerance)
       (String.length fragment + windowTolerance
        - (String.length fragment - windowTolerance) + 1)).

Definition candidatesAt (content fragment : string) (start : nat)
    : list EditMatch :=
  List.map
    (fun len =>
       let span := String.substring start len content in
       {| actualText := span; startIndex := start;
          confidence := similarity span fragment |})
    (List.filter (fun len => (start + len <=? String.length content)%nat)
       (windowLengths fragment)).

Definition candidates (content fragment : string) : list EditMatch :=
  List.flat_map (candidatesAt content fragment)
    (List.seq 0 (String.length content)).

(** Modelled from the spec: part of the missing [findEditMatch].  Spec 4.2:
    the highest-scoring candidate; on a tie the earlier one stays, which is
    the leftmost. *)
Fixpoint bestCandidate (best : option EditMatch) (l : list EditMatch)
    : option EditMatch :=
  match l with
  | [] => best
  | c :: l' =>
      match best with
      | None => bestCandidate (Some c) l'
      | Some b =>
          if Qle_bool (confidence c) (confidence b)
          then bestCandidate best l'
          else bestCandidate (Some c) l'
      end
  end.

Definition noOutcome : EditMatchOutcome :=
  {| om_match := None; closest := None; occurrences := None;
     fuzzyMatches := None |}.

(** Modelled from the spec: part of the missing [findEditMatch].  Spec 4.2,
    step 2: the candidates above the diagnostic floor are retained, up to
    the cap; the best candidate is the match when it reaches the threshold,
    and the closest candidate in any case. *)
Definition approximateScan (content fragment : string) (threshold : Q)
    : EditMatchOutcome :=
  let all := candidates content fragment in
  let retained :=
    firstn candidateCap
      (List.filter (fun c => negb (Qle_bool (confidence c) diagnosticFloor))
         all) in
  match bestCandidate None all with
  | None => noOutcome
  | Some best =>
      {| om_match :=
           if Qle_bool threshold (confidence best) then Some best else None;
         closest := Some best;
         occurrences := None;
         fuzzyMatches := Some retained |}
  end.

(** Modelled from the spec: [findEditMatch] of [./edit-diff] is missing
    from the sources.  Spec 4.2, [findMatch(content, fragment,
    {allowApproximate, threshold})].  Step 1: the exact occurrences are counted as the orchestrator counts
    them; one occurrence is the match, with confidence 1; several give no
    match and the occurrence count.  Step 2 runs only when there is no
    exact occurrence and approximation is allowed. *)
Definition findEditMatch (content fragment : string) (options : MatchOptions)
    : EditMatchOutcome :=
  let count := exactCount content fragment in
  if count =? 1 then
    {| om_match :=
         Some {| actualText := fragment;
                 startIndex :=
                   match String.index 0 fragment content with
                   | Some i => i
                   | None => O
                   end;
                 confidence := 1 |};
       closest := None; occurrences := None; fuzzyMatches := None |}
  else if 1 <? count then
    {| om_match := None; closest := None; occurrences := Some count;
       fuzzyMatches := None |}
  else if allowFuzzyOpt options then
    approximateScan content fragment (similarityThreshold options)
  else noOutcome.

Lemma findEditMatch_several content fragment options :
  1 < exactCount content fragment ->
  findEditMatch content fragment options
  = {| om_match := None; closest := None;
       occurrences := Some (exactCount content fragment);
       fuzzyMatches := None |}.
Proof.
  intros H. unfold findEditMatch. cbv zeta.
  destruct (Z.eqb_spec (exactCount content fragment) 1); [lia |].
  destruct (Z.ltb_spec 1 (exactCount content fragment)); [reflexivity | lia].
Qed.

Lemma approximateScan_occurrences content fragment threshold :
  occurrences (approximateScan content fragment threshold) = None.
Proof.
  unfold approximateScan. cbv zeta.
  now destruct (bestCandidate None (candidates content fragment)).
Qed.

Lemma findEditMatch_none_exact content fragment options :
  exactCount content fragment <= 0 ->
  occurrences (findEditMatch content fragment options) = None.
Proof.
  intros H. unfold findEditMatch. cbv zeta.
  destruct (Z.eqb_spec (exactCount content fragment) 1); [lia |].
  destruct (Z.ltb_spec 1 (exactCount content fragment)); [lia |].
  destruct (allowFuzzyOpt options); [| reflexivity].
  apply approximateScan_occurrences.
Qed.

End MatchEngine.

(** The distance that only tells equal texts from different ones. *)
Definition discreteDistance (a b : string) : Q :=
  if String.eqb a b then 0 else 1.

(** *** The Document Normalizer *)

(** The byte-order marker, as the three bytes of its UTF-8 encoding. *)
Definition BOM : string :=
  String "239"%char (String "187"%char (String "191"%char "")).

(** Modelled from the spec: [stripBom] of [./edit-diff] is missing from
    the sources.  Spec 4.1: recognize the 3-byte UTF-8 byte-order marker at
    the start of the raw content; if present, remove it and keep it to
    prepend it again on output. *)
Definition stripBom (rawContent : string) : string * string :=
  if Str.startsWith rawContent BOM
  then (BOM, Str.drop 3 rawContent)
  else (EmptyString, rawContent).

(** The two line-ending conventions, and the kind recorded for a document
    (spec 3: uniform-LF, uniform-CRLF, mixed-with-dominant-kind). *)
Inductive LineEnding : Type := EndingLF | EndingCRLF.

Inductive LineEndingKind : Type :=
| UniformLF
| UniformCRLF
| Mixed (dominant : LineEnding).

Definition isCRLF (c d : ascii) : bool := Ascii.eqb c CR && Ascii.eqb d LF.

(** Modelled from the spec: part of the missing [detectLineEnding].  The
    numbers of CRLF terminators and of LF-only terminators. *)
Fixpoint countEndings (s : string) : nat * nat :=
  match s with
  | EmptyString => (O, O)
  | String c s' =>
      match s' with
      | EmptyString => if Ascii.eqb c LF then (O, 1%nat) else (O, O)
      | String d rest =>
          if isCRLF c d then
            let '(crlf, lf) := countEndings rest in (S crlf, lf)
          else if Ascii.eqb c LF then
            let '(crlf, lf) := countEndings s' in (crlf, S lf)
          else countEndings s'
      end
  end.

(** Modelled from the spec: [detectLineEnding] of [./edit-diff] is missing
    from the sources.  Spec 4.1: classify the file as CRLF, LF-only, or
    mixed; when mixed, the majority convention is the one to restore (CRLF
    when there are more CRLF than LF-only terminators, LF otherwise). *)
Definition detectLineEnding (content : string) : LineEndingKind :=
  let '(crlf, lf) := countEndings content in
  if (crlf =? 0)%nat then UniformLF
  else if (lf =? 0)%nat then UniformCRLF
  else Mixed (if (lf <? crlf)%nat then EndingCRLF else EndingLF).

(** Modelled from the spec: [normalizeToLF] of [./edit-diff] is missing
    from the sources.  Spec 4.1: canonicalization converts all terminators
    (CRLF, LF) to a single line feed. *)
Fixpoint normalizeToLF (text : string) : string :=
  match text with
  | EmptyString => EmptyString
  | String c s' =>
      match s' with
      | EmptyString => String c EmptyString
      | String d rest =>
          if isCRLF c d then String LF (normalizeToLF rest)
          else String c (normalizeToLF s')
      end
  end.

(** Modelled from the spec: part of the missing [restoreLineEndings].
    Every line feed becomes CR LF. *)
Fixpoint expandToCRLF (text : string) : string :=
  match text with
  | EmptyString => EmptyString
  | String c s' =>
      if Ascii.eqb c LF then String CR (String LF (expandToCRLF s'))
      else String c (expandToCRLF s')
  end.

(** The convention a recorded kind restores. *)
Definition restoredEnding (kind : LineEndingKind) : LineEnding :=
  match kind with
  | UniformLF => EndingLF
  | UniformCRLF => EndingCRLF
  | Mixed dominant => dominant
  end.

(** Modelled from the spec: [restoreLineEndings] of [./edit-diff] is
    missing from the sources.  Spec 4.1: restoration re-expands the
    canonical content to the recorded convention. *)
Definition restoreLineEndings (text : string) (kind : LineEndingKind)
    : string :=
  match restoredEnding kind with
  | EndingLF => text
  | EndingCRLF => expandToCRLF text
  end.

(** Spec 4.1, [normalize(rawContent) -> (marker, canonicalContent,
    lineEndingKind)], as [execute] computes it at lines 70 to 73. *)
Definition normalize (rawContent : string) : string * string * LineEndingKind :=
  let '(bom, content) := stripBom rawContent in
  (bom, normalizeToLF content, detectLineEnding content).

(** Spec 4.1, [restore(canonicalContent, marker, lineEndingKind)], as
    [execute] computes the final content at line 158. *)
Definition restore (n : string * string * LineEndingKind) : string :=
  let '(bom, canonicalContent, kind) := n in
  bom +:+ restoreLineEndings canonicalContent kind.

Definition isMixed (kind : LineEndingKind) : bool :=
  match kind with Mixed _ => true | _ => false end.

Lemma stripBom_app rawContent :
  (stripBom rawContent).1 +:+ (stripBom rawContent).2 = rawContent.
Proof.
  unfold stripBom, Str.startsWith.
  destruct (String.prefix BOM rawContent) eqn:Hp; [| reflexivity].
  cbn [fst snd]. symmetry. now apply (Str.prefix_split BOM).
Qed.

Lemma countEndings_cons2 c d rest :
  countEndings (String c (String d rest))
  = if isCRLF c d then
      let '(crlf, lf) := countEndings rest in (S crlf, lf)
    else if Ascii.eqb c LF then
      let '(crlf, lf) := countEndings (String d rest) in (crlf, S lf)
    else countEndings (String d rest).
Proof. reflexivity. Qed.

Lemma normalizeToLF_cons2 c d rest :
  normalizeToLF (String c (String d rest))
  = if isCRLF c d then String LF (normalizeToLF rest)
    else String c (normalizeToLF (String d rest)).
Proof. reflexivity. Qed.

Lemma expandToCRLF_cons c s :
  expandToCRLF (String c s)
  = if Ascii.eqb c LF then String CR (String LF (expandToCRLF s))
    else String c (expandToCRLF s).
Proof. reflexivity. Qed.

(** Without CRLF terminator, canonicalization changes nothing. *)
Lemma normalizeToLF_uniform_lf :
  forall n s, (String.length s <= n)%nat ->
    (countEndings s).1 = O -> normalizeToLF s = s.
Proof.
  induction n as [|n IH]; intros s Hlen Hc.
  - destruct s; [reflexivity | simpl in Hlen; lia].
  - destruct s as [|c [|d rest]]; try reflexivity.
    rewrite countEndings_cons2 in Hc. rewrite normalizeToLF_cons2.
    destruct (isCRLF c d).
    + destruct (countEndings rest). discriminate.
    + f_equal. apply IH; [simpl in *; lia |].
      destruct (Ascii.eqb c LF); [| assumption].
      now destruct (countEndings (String d rest)).
Qed.

(** Without LF-only terminator, expansion undoes canonicalization. *)
Lemma expand_normalize_uniform_crlf :
  forall n s, (String.length s <= n)%nat ->
    (countEndings s).2 = O -> expandToCRLF (normalizeToLF s) = s.
Proof.
  induction n as [|n IH]; intros s Hlen Hc.
  - destruct s; [reflexivity | simpl in Hlen; lia].
  - destruct s as [|c [|d rest]]; [reflexivity | |].
    + cbn [countEndings normalizeToLF expandToCRLF] in *.
      destruct (Ascii.eqb c LF); [discriminate | reflexivity].
    + rewrite countEndings_cons2 in Hc. rewrite normalizeToLF_cons2.
      destruct (isCRLF c d) eqn:Hcd.
      * unfold isCRLF in Hcd. apply andb_true_iff in Hcd as [Hc1 Hd1].
        apply Ascii.eqb_eq in Hc1, Hd1. subst c d.
        rewrite expandToCRLF_cons. change (Ascii.eqb LF LF) with true.
        cbv iota. f_equal. f_equal. apply IH; [simpl in *; lia |].
        now destruct (countEndings rest).
      * rewrite expandToCRLF_cons.
        destruct (Ascii.eqb c LF).
        -- destruct (countEndings (String d rest)). discriminate.
        -- f_equal. apply IH; [simpl in *; lia | assumption].
Qed.

(** On a content whose line endings are uniform, the round trip gives the
    raw content back. *)
Lemma restore_normalize_of_uniform (rawContent : string) :
  isMixed (detectLineEnding (stripBom rawContent).2) = false ->
  restore (normalize rawContent) = rawContent.
Proof.
  intros Hu. unfold restore, normalize.
  rewrite <- (stripBom_app rawContent) at 2.
  destruct (stripBom rawContent) as [bom content]. cbn [fst snd] in *.
  f_equal. unfold detectLineEnding, restoreLineEndings in *.
  destruct (countEndings content) as [crlf lf] eqn:Hc.
  destruct (Nat.eqb_spec crlf 0) as [->|Hcrlf].
  - cbn [restoredEnding].
    apply normalizeToLF_uniform_lf with (n := String.length content);
      [lia | now rewrite Hc].
  - destruct (Nat.eqb_spec lf 0) as [->|Hlf]; [| discriminate].
    cbn [restoredEnding].
    apply expand_normalize_uniform_crlf with (n := String.length content);
      [lia | now rewrite Hc].
Qed.

(** The number of line feeds of a text. *)
Fixpoint lfChars (s : string) : nat :=
  match s with
  | EmptyString => O
  | String c s' => ((if Ascii.eqb c LF then 1 else 0) + lfChars s')%nat
  end.

Lemma countEndings_single c :
  countEndings (String c "")
  = if Ascii.eqb c LF then (O, 1%nat) else (O, O).
Proof. reflexivity. Qed.

(** Canonicalization drops one character for each CRLF terminator. *)
Lemma length_normalizeToLF :
  forall n s, (String.length s <= n)%nat ->
    (String.length (normalizeToLF s) + (countEndings s).1)%nat
    = String.length s.
Proof.
  induction n as [|n IH]; intros s Hlen.
  - destruct s; [reflexivity | simpl in Hlen; lia].
  - destruct s as [|c [|d rest]]; [reflexivity | |].
    + rewrite countEndings_single. now destruct (Ascii.eqb c LF).
    + rewrite countEndings_cons2, normalizeToLF_cons2.
      destruct (isCRLF c d).
      * specialize (IH rest ltac:(simpl in *; lia)).
        destruct (countEndings rest) as [a b]. cbn [fst] in *.
        cbn [String.length]. lia.
      * specialize (IH (String d rest) ltac:(simpl in *; lia)).
        assert (Hfst : (if Ascii.eqb c LF
                        then let '(crlf, lf) := countEndings (String d rest)
                             in (crlf, S lf)
                        else countEndings (String d rest)).1
                       = (countEndings (String d rest)).1).
        { destruct (Ascii.eqb c LF); [| reflexivity].
          now destruct (countEndings (String d rest)). }
        rewrite Hfst. cbn [String.length] in *. lia.
Qed.

(** The canonical content has one line feed for each terminator. *)
Lemma lfChars_normalizeToLF :
  forall n s, (String.length s <= n)%nat ->
    lfChars (normalizeToLF s)
    = ((countEndings s).1 + (countEndings s).2)%nat.
Proof.
  induction n as [|n IH]; intros s Hlen.
  - destruct s; [reflexivity | simpl in Hlen; lia].
  - destruct s as [|c [|d rest]]; [reflexivity | |].
    + rewrite countEndings_single. cbn [normalizeToLF lfChars].
      now destruct (Ascii.eqb c LF).
    + rewrite countEndings_cons2, normalizeToLF_cons2.
      destruct (isCRLF c d).
      * specialize (IH rest ltac:(simpl in *; lia)).
        destruct (countEndings rest) as [a b]. cbn [fst snd] in *.
        cbn [lfChars]. change (Ascii.eqb LF LF) with true. cbv iota.
        rewrite IH. lia.
      * specialize (IH (String d rest) ltac:(simpl in *; lia)).
        cbn [lfChars]. rewrite IH.
        destruct (Ascii.eqb c LF); [| reflexivity].
        destruct (countEndings (String d rest)) as [a b]. cbn [fst snd]. lia.
Qed.

(** Expansion adds one character for each line feed. *)
Lemma length_expandToCRLF t :
  String.length (expandToCRLF t) = (String.length t + lfChars t)%nat.
Proof.
  induction t as [|c t IH]; [reflexivity |].
  rewrite expandToCRLF_cons. cbn [lfChars].
  destruct (Ascii.eqb c LF); cbn [String.length]; rewrite IH; lia.
Qed.

(** On a content that mixes CRLF and LF-only terminators, the round trip
    gives a content of another length. *)
Lemma restore_normalize_of_mixed (rawContent : string) :
  isMixed (detectLineEnding (stripBom rawContent).2) = true ->
  restore (normalize rawContent) <> rawContent.
Proof.
  intros Hmix Heq. unfold restore, normalize in Heq.
  rewrite <- (stripBom_app rawContent) in Heq at 2.
  destruct (stripBom rawContent) as [bom content]. cbn [fst snd] in *.
  apply string_app_inv_head in Heq.
  pose proof (length_normalizeToLF _ content (Nat.le_refl _)) as Hlen.
  pose proof (lfChars_normalizeToLF _ content (Nat.le_refl _)) as Hlf.
  unfold detectLineEnding, restoreLineEndings in *.
  destruct (countEndings content) as [crlf lf]. cbn [fst snd] in *.
  destruct (Nat.eqb_spec crlf 0) as [|Hcrlf]; [discriminate |].
  destruct (Nat.eqb_spec lf 0) as [|Hlf0]; [discriminate |].
  cbn [restoredEnding] in Heq.
  apply (f_equal String.length) in Heq.
  destruct (lf <? crlf)%nat.
  - rewrite length_expandToCRLF, Hlf in Heq. lia.
  - lia.
Qed.

(** C6, as the normalizer has it.  Stripping the marker, detecting the kind
    and canonicalizing, then prepending the marker and re-expanding to the
    recorded kind, gives back the raw content exactly when its line endings
    are uniform (only LF terminators, or only CRLF terminators, or none:
    the empty file included); on a content that mixes CRLF and LF-only
    terminators the result differs from the raw content. *)
Theorem restore_normalize_iff_uniform (rawContent : string) :
  restore (normalize rawContent) = rawContent
  <-> isMixed (detectLineEnding (stripBom rawContent).2) = false.
Proof.
  split.
  - intros Heq.
    destruct (isMixed (detectLineEnding (stripBom rawContent).2)) eqn:Hmix;
      [| reflexivity].
    exfalso. exact (restore_normalize_of_mixed rawContent Hmix Heq).
  - apply restore_normalize_of_uniform.
Qed.

(** A file with the marker and CRLF endings throughout. *)
Definition crlfSample : string :=
  BOM +:+ "a" +:+ String CR nl +:+ "b" +:+ String CR nl.

(** The round trip on that file, and on the empty file. *)
Lemma restore_normalize_iff_uniform_witness :
  normalize crlfSample = (BOM, "a" +:+ nl +:+ "b" +:+ nl, UniformCRLF) /\
  restore (normalize crlfSample) = crlfSample /\
  restore (normalize "") = "".
Proof.
  split; [reflexivity |].
  split; apply restore_normalize_iff_uniform; reflexivity.
Defined.

(** A file with one CRLF and one LF-only terminator. *)
Definition mixedSample : string := "a" +:+ String CR nl +:+ "b" +:+ nl.

(** C6 fails on a mixed file: the round trip rewrites the CRLF terminator,
    and no recorded kind would give the file back. *)
Lemma restore_normalize_mixed_differs :
  restore (normalize mixedSample) = "a" +:+ nl +:+ "b" +:+ nl /\
  restore (normalize mixedSample) <> mixedSample /\
  (forall kind : LineEndingKind,
     restoreLineEndings (normalizeToLF mixedSample) kind <> mixedSample).
Proof.
  split; [reflexivity |]. split; [discriminate |].
  intros [| |[|]]; discriminate.
Qed.


(** *** The orchestrator over the modelled match engine *)

Section EngineClaims.

Variable cwd : string.
Variable allowFuzzy : bool.
Variable writethrough :
  string -> string -> gmap string string ->
  gmap string string * (string + option FileDiagnosticsResult).
Variable DEFAULT_FUZZY_THRESHOLD : Q.
Variable resolveToCwd : string -> string -> string.
Variable generateDiffString : string -> string -> DiffResult.
Variable distance : string -> string -> Q.
Variable windowTolerance : nat.
Variable diagnosticFloor : Q.
Variable candidateCap : nat.

(** The match engine and the options [execute] passes to it. *)
Local Abbreviation engine :=
  (findEditMatch distance windowTolerance diagnosticFloor candidateCap).
Local Abbreviation options := (matchOptions allowFuzzy DEFAULT_FUZZY_THRESHOLD).

(** The edit tool put together from the modelled normalizer and engine. *)
Definition editTool : nat -> string -> string -> string -> bool -> M ToolResult :=
  execute cwd allowFuzzy writethrough LineEndingKind DEFAULT_FUZZY_THRESHOLD
    resolveToCwd stripBom detectLineEnding normalizeToLF restoreLineEndings
    engine generateDiffString.

Lemma selectMatch_None_match mo :
  selectMatch allowFuzzy DEFAULT_FUZZY_THRESHOLD mo = None ->
  om_match mo = None.
Proof. unfold selectMatch. now destruct (om_match mo). Qed.

(** C1.  In single mode, when the normalized search text has more than one
    exact occurrence in the normalized content, [execute] throws the error
    whose message gives the occurrence count; the file has been resolved,
    found and read, and nothing else: no replacement is written. *)
Theorem several_occurrences_rejected
    (fuel : nat) (path oldText newText : string) (w : World) (raw : string) :
  Str.endsWith path ".ipynb" = false ->
  files w !! resolveToCwd path cwd = Some raw ->
  let content := normalizeToLF (stripBom raw).2 in
  let old := normalizeToLF oldText in
  1 < exactCount content old ->
  editTool fuel path oldText newText false w
  = (Throw (Engine (JsError
       ("Found " +:+ decimal (exactCount content old)
        +:+ " occurrences of the text in " +:+ path
        +:+ ". The text must be unique. Please provide more context to make it unique, or use all: true to replace all."))),
     afterRead cwd resolveToCwd path w)
  /\ files (afterRead cwd resolveToCwd path w) = files w
  /\ noWritethrough [EvResolve path cwd; EvExists (resolveToCwd path cwd);
                     EvRead (resolveToCwd path cwd)].
Proof.
  intros Hn Hf content old Hcount. split; [| split; reflexivity].
  unfold editTool.
  rewrite (execute_present _ _ _ _ _ _ _ _ _ _ _ _ _ _ _ _ _ _ raw)
    by assumption.
  cbv zeta. fold content old.
  unfold replacePhase, replaceSingle. cbv zeta.
  rewrite findEditMatch_several by assumption.
  unfold severalOccurrences. cbn [occurrences].
  now destruct (Z.ltb_spec 1 (exactCount content old)); [| lia].
Qed.

(** C4.  In all mode without exact occurrence, let the loop leave after [i]
    replacements, at content [c'] and count [k].  If it made none, the call
    fails with the no-match error, the very error single mode throws on the
    same input.  If it made at least one, the replace phase succeeds with
    [c'] and [k], although its last iteration found no qualifying match;
    and [c'] differs from the content the loop began with. *)
Theorem all_mode_loop_exit
    (path content oldText newText : string) (i : nat) (c' : string) (k : Z) :
  exactCount content oldText <= 0 ->
  LoopRun allowFuzzy DEFAULT_FUZZY_THRESHOLD engine oldText newText
    i content 0 c' k ->
  k = Z.of_nat i /\
  selectMatch allowFuzzy DEFAULT_FUZZY_THRESHOLD (engine c' oldText options)
  = None /\
  (k = 0 ->
   forall fuel, (0 < fuel)%nat ->
     replacePhase allowFuzzy DEFAULT_FUZZY_THRESHOLD engine fuel path
       content oldText newText true
     = Throw (Engine (noMatchError allowFuzzy DEFAULT_FUZZY_THRESHOLD path
                        oldText (engine content oldText options)))
     /\ replacePhase allowFuzzy DEFAULT_FUZZY_THRESHOLD engine fuel path
          content oldText newText false
        = replacePhase allowFuzzy DEFAULT_FUZZY_THRESHOLD engine fuel path
            content oldText newText true) /\
  (0 < k ->
   forall fuel, (i < fuel)%nat ->
     replacePhase allowFuzzy DEFAULT_FUZZY_THRESHOLD engine fuel path
       content oldText newText true
     = Return (c', k)
     /\ c' <> content).
Proof.
  intros Hcount Hrun.
  pose proof (LoopRun_count _ _ _ _ _ _ _ _ _ _ Hrun) as Hk.
  pose proof (LoopRun_stop _ _ _ _ _ _ _ _ _ _ Hrun) as Hstop.
  assert (Hall : forall fuel,
    replacePhase allowFuzzy DEFAULT_FUZZY_THRESHOLD engine fuel path
      content oldText newText true
    = fuzzyLoop allowFuzzy DEFAULT_FUZZY_THRESHOLD engine fuel path
        oldText newText content 0).
  { intros fuel. unfold replacePhase, replaceAllMode. cbv zeta.
    now destruct (Z.ltb_spec 0 (exactCount content oldText)); [lia |]. }
  split; [lia |]. split; [exact Hstop |]. split.
  - intros Hk0 fuel Hfuel.
    assert (i = 0%nat) by lia. subst i k.
    inversion Hrun; subst.
    assert (Htrue : replacePhase allowFuzzy DEFAULT_FUZZY_THRESHOLD engine
                      fuel path c' oldText newText true
                    = Throw (Engine (noMatchError allowFuzzy
                        DEFAULT_FUZZY_THRESHOLD path oldText
                        (engine c' oldText options)))).
    { rewrite Hall.
      now rewrite (fuzzyLoop_of_run _ _ _ path _ _ _ _ _ _ _ Hrun fuel Hfuel). }
    split; [exact Htrue |]. rewrite Htrue.
    unfold replacePhase, replaceSingle. cbv zeta.
    unfold severalOccurrences.
    rewrite findEditMatch_none_exact by assumption.
    now rewrite (selectMatch_None_match _ Hstop).
  - intros Hpos fuel Hfuel. split.
    + rewrite Hall.
      rewrite (fuzzyLoop_of_run _ _ _ path _ _ _ _ _ _ _ Hrun fuel Hfuel).
      now destruct (Z.eqb_spec k 0); [lia |].
    + destruct i as [|i]; [lia |].
      exact (LoopRun_changes _ _ _ _ _ _ _ _ _ _ Hrun).
Qed.

End EngineClaims.

(** *** A tool instance for the examples *)

Definition tab : string := String "009"%char "".

(** Paths are resolved below the working directory. *)
Definition sampleResolve (path cwd : string) : string := cwd +:+ "/" +:+ path.

(** A callback that stores the content and returns no diagnostics. *)
Definition sampleWritethrough (absolutePath finalContent : string)
    (fs : gmap string string)
    : gmap string string * (string + option FileDiagnosticsResult) :=
  (<[absolutePath := finalContent]> fs, inr None).

(** The examples do not look at the diff. *)
Definition noDiff (before after : string) : DiffResult :=
  {| diff := EmptyString; firstChangedLine := None |}.

Definition sampleEngine : string -> string -> MatchOptions -> EditMatchOutcome :=
  findEditMatch discreteDistance 2 (3 # 10) 5.

Definition sampleTool : nat -> string -> string -> string -> bool -> M ToolResult :=
  editTool "/w" true sampleWritethrough (19 # 20) sampleResolve noDiff
    discreteDistance 2 (3 # 10) 5.

(** A world with one file under the working directory. *)
Definition sampleWorld (path content : string) : World :=
  {| files := {[ sampleResolve path "/w" := content ]}; trace := [] |}.

Definition emptyWorld : World := {| files := ∅; trace := [] |}.

Lemma sampleWorld_lookup path content :
  files (sampleWorld path content) !! sampleResolve path "/w" = Some content.
Proof. apply lookup_singleton_eq. Qed.

(** Spec 8, ambiguity: content ["x=1\nx=1\n"], [oldText = "x=1"]. *)
Definition twoAssignments : string := "x=1" +:+ nl +:+ "x=1" +:+ nl.

(** Single mode on that content: two occurrences, nothing written. *)
Lemma several_occurrences_rejected_witness :
  sampleTool 0 "f.txt" "x=1" "x=2" false (sampleWorld "f.txt" twoAssignments)
  = (Throw (Engine (JsError
       "Found 2 occurrences of the text in f.txt. The text must be unique. Please provide more context to make it unique, or use all: true to replace all.")),
     afterRead "/w" sampleResolve "f.txt" (sampleWorld "f.txt" twoAssignments)).
Proof.
  refine (proj1 (several_occurrences_rejected "/w" true sampleWritethrough
            (19 # 20) sampleResolve noDiff discreteDistance 2 (3 # 10) 5
            0 "f.txt" "x=1" "x=2" (sampleWorld "f.txt" twoAssignments)
            twoAssignments _ _ _)).
  - reflexivity.
  - apply sampleWorld_lookup.
  - vm_compute. reflexivity.
Defined.

(** Spec 8, no-op rejection: [oldText] equal to [newText]. *)
Lemma unchanged_content_is_an_error_witness :
  sampleTool 0 "f.txt" "b" "b" false
    (sampleWorld "f.txt" ("a" +:+ nl +:+ "b" +:+ nl))
  = (Throw (Engine (noChangesError "f.txt")),
     afterRead "/w" sampleResolve "f.txt"
       (sampleWorld "f.txt" ("a" +:+ nl +:+ "b" +:+ nl))).
Proof.
  refine (proj1 (unchanged_content_is_an_error "/w" true sampleWritethrough
            LineEndingKind (19 # 20) sampleResolve stripBom detectLineEnding
            normalizeToLF restoreLineEndings sampleEngine noDiff
            0 "f.txt" "b" "b" false
            (sampleWorld "f.txt" ("a" +:+ nl +:+ "b" +:+ nl))
            ("a" +:+ nl +:+ "b" +:+ nl) ("a" +:+ nl +:+ "b" +:+ nl) 1
            _ _ _) _).
  - reflexivity.
  - apply sampleWorld_lookup.
  - vm_compute. reflexivity.
  - reflexivity.
Defined.

(** Spec 8, replace-all exact: the same content, [newText = "x=2"]. *)
Lemma replace_all_exact_witness :
  replacePhase true (19 # 20) sampleEngine 0 "f.txt" twoAssignments "x=1" "x=2" true
  = Return ("x=2" +:+ nl +:+ "x=2" +:+ nl, 2) /\
  sampleTool 0 "f.txt" "x=1" "x=2" true (sampleWorld "f.txt" twoAssignments)
  = (Return {| resultText := "Successfully replaced 2 occurrences in f.txt.";
               details := {| details_diff := "";
                             details_firstChangedLine := None;
                             details_diagnostics := None |} |},
     {| files := {[ "/w/f.txt" := "x=2" +:+ nl +:+ "x=2" +:+ nl ]};
        trace := [EvResolve "f.txt" "/w"; EvExists "/w/f.txt";
                  EvRead "/w/f.txt";
                  EvWritethrough "/w/f.txt" ("x=2" +:+ nl +:+ "x=2" +:+ nl)] |}).
Proof.
  destruct (replace_all_exact "/w" true sampleWritethrough
              LineEndingKind (19 # 20) sampleResolve stripBom detectLineEnding
              normalizeToLF restoreLineEndings sampleEngine noDiff
              0 "f.txt" "x=1" "x=2" (sampleWorld "f.txt" twoAssignments)
              twoAssignments)
    as (Hphase & _ & _ & Hrun).
  - reflexivity.
  - apply sampleWorld_lookup.
  - vm_compute. reflexivity.
  - split.
    + exact Hphase.
    + unfold sampleTool, editTool. fold sampleEngine. rewrite Hrun.
      vm_compute. reflexivity.
Defined.

(** A notebook path in a world without any file. *)
Lemma notebook_rejected_before_io_witness :
  sampleTool 0 "analysis.ipynb" "a" "b" false emptyWorld
  = (Throw (Engine notebookError), emptyWorld).
Proof.
  refine (proj1 (notebook_rejected_before_io "/w" true sampleWritethrough
            LineEndingKind (19 # 20) sampleResolve stripBom detectLineEnding
            normalizeToLF restoreLineEndings sampleEngine noDiff
            0 "analysis.ipynb" "a" "b" false emptyWorld _)).
  reflexivity.
Defined.

(** A missing file: the not-found error, and the files as before. *)
Lemma engine_error_leaves_file_witness :
  files (sampleTool 0 "gone.txt" "a" "b" false
           (sampleWorld "f.txt" "a")).2
  = files (sampleWorld "f.txt" "a").
Proof.
  destruct (sampleTool 0 "gone.txt" "a" "b" false (sampleWorld "f.txt" "a"))
    as [r w'] eqn:Hrun.
  assert (Hr : r = Throw (Engine (notFoundError "gone.txt"))).
  { apply (f_equal fst) in Hrun. cbn [fst] in Hrun. rewrite <- Hrun.
    unfold sampleTool, editTool.
    rewrite execute_missing; [reflexivity | reflexivity |].
    apply lookup_singleton_ne. discriminate. }
  subst r.
  exact (proj1 (proj2 (engine_error_leaves_file "/w" true sampleWritethrough
           LineEndingKind (19 # 20) sampleResolve stripBom detectLineEnding
           normalizeToLF restoreLineEndings sampleEngine noDiff
           0 "gone.txt" "a" "b" false (sampleWorld "f.txt" "a") w'
           (notFoundError "gone.txt") Hrun))).
Defined.

(** One approximate replacement, then no further match. *)
Lemma all_mode_loop_exit_witness :
  replacePhase true (19 # 20) sampleEngine 2 "f.txt"
    ("a" +:+ tab +:+ "b") "a b" "a-b" true
  = Return ("a-b", 1) /\
  replacePhase true (19 # 20) sampleEngine 1 "f.txt" "abc" "xyz" "uvw" true
  = replacePhase true (19 # 20) sampleEngine 1 "f.txt" "abc" "xyz" "uvw" false.
Proof.
  split.
  - assert (Hrun : LoopRun true (19 # 20) sampleEngine "a b" "a-b" 1
                     ("a" +:+ tab +:+ "b") 0 "a-b" 1).
    { eapply LoopStep; [vm_compute; reflexivity |].
      apply (LoopStop true (19 # 20) sampleEngine "a b" "a-b" "a-b" 1).
      vm_compute. reflexivity. }
    refine (proj1 (proj2 (proj2 (proj2 (all_mode_loop_exit true (19 # 20)
              discreteDistance 2 (3 # 10) 5 "f.txt" ("a" +:+ tab +:+ "b")
              "a b" "a-b" 1 "a-b" 1 _ Hrun))) _ 2%nat _)); [| lia | lia].
    vm_compute. discriminate.
  - assert (Hrun : LoopRun true (19 # 20) sampleEngine "xyz" "uvw" 0
                     "abc" 0 "abc" 0).
    { apply LoopStop. vm_compute. reflexivity. }
    symmetry.
    refine (proj2 (proj1 (proj2 (proj2 (all_mode_loop_exit true (19 # 20)
              discreteDistance 2 (3 # 10) 5 "f.txt" "abc"
              "xyz" "uvw" 0 "abc" 0 _ Hrun))) _ 1%nat _)); [| lia | lia].
    vm_compute. discriminate.
Defined.

(** C5 fails on the code: with the replacement text ["a<tab>b"] for the
    fragment ["a b"] in the content ["a<tab>b"], every iteration finds the
    same approximate match and leaves the content as it is; no bound on
    the iterations lets the replace phase, or [execute], come back. *)
Lemma all_mode_loop_diverges :
  ~ (exists fuel,
       replacePhase true (19 # 20) sampleEngine fuel "f.txt"
         ("a" +:+ tab +:+ "b") "a b" ("a" +:+ tab +:+ "b") true
       <> OutOfFuel) /\
  ~ (exists fuel,
       (sampleTool fuel "f.txt" "a b" ("a" +:+ tab +:+ "b") true
          (sampleWorld "f.txt" ("a" +:+ tab +:+ "b"))).1
       <> OutOfFuel).
Proof.
  assert (Hloop : forall fuel,
    replacePhase true (19 # 20) sampleEngine fuel "f.txt"
      ("a" +:+ tab +:+ "b") "a b" ("a" +:+ tab +:+ "b") true = OutOfFuel).
  { intros fuel. unfold replacePhase, replaceAllMode. cbv zeta.
    replace (0 <? exactCount ("a" +:+ tab +:+ "b") "a b") with false
      by (vm_compute; reflexivity).
    eapply fuzzyLoop_fixed_point; vm_compute; reflexivity. }
  split; intros [fuel H]; apply H.
  - apply Hloop.
  - unfold sampleTool, editTool.
    rewrite (execute_present _ _ _ _ _ _ _ _ _ _ _ _ _ _ _ _ _ _
               ("a" +:+ tab +:+ "b"));
      [| reflexivity | apply sampleWorld_lookup].
    cbv zeta.
    change (normalizeToLF (stripBom ("a" +:+ tab +:+ "b")).2)
      with ("a" +:+ tab +:+ "b").
    change (normalizeToLF "a b") with "a b".
    fold sampleEngine. now rewrite Hloop.
Qed.

(** The loop on a content that the replacement leaves as it is, and on one
    where the first iteration finds nothing. *)
Lemma fuzzyLoop_halts_iff_no_match_witness :
  fuzzyLoop true (19 # 20) sampleEngine 1000 "f.txt" "a b"
    ("a" +:+ tab +:+ "b") ("a" +:+ tab +:+ "b") 0
  = OutOfFuel /\
  fuzzyLoop true (19 # 20) sampleEngine 1 "f.txt" "xyz" "uvw" "abc" 1
  <> OutOfFuel.
Proof.
  split.
  - refine (proj2 (fuzzyLoop_halts_iff_no_match true (19 # 20) sampleEngine
              1000 "f.txt" "a b" ("a" +:+ tab +:+ "b") ("a" +:+ tab +:+ "b") 0)
              {| actualText := "a" +:+ tab +:+ "b"; startIndex := 0;
                 confidence := 1 |} _ _).
    + vm_compute. reflexivity.
    + reflexivity.
  - apply (proj2 (proj1 (fuzzyLoop_halts_iff_no_match true (19 # 20)
              sampleEngine 1 "f.txt" "xyz" "uvw" "abc" 1))).
    exists 0%nat, "abc", 1. split; [lia |].
    apply LoopStop. vm_compute. reflexivity.
Defined.

(** *** Examples for the further properties *)

Definition threeLines : string := "a" +:+ nl +:+ "b" +:+ nl +:+ "c" +:+ nl.

Lemma replacement_count_positive_witness :
  replacePhase true (19 # 20) sampleEngine 0 "f.txt" threeLines "b" "B" false
  = Return ("a" +:+ nl +:+ "B" +:+ nl +:+ "c" +:+ nl, 1) /\
  1 <= 1.
Proof.
  assert (H : replacePhase true (19 # 20) sampleEngine 0 "f.txt" threeLines
                "b" "B" false
              = Return ("a" +:+ nl +:+ "B" +:+ nl +:+ "c" +:+ nl, 1))
    by (vm_compute; reflexivity).
  split; [exact H |].
  exact (proj1 (replacement_count_positive true (19 # 20) sampleEngine
                  0 "f.txt" threeLines "b" "B" false _ 1 H)).
Defined.

Lemma not_found_iff_missing_witness :
  (sampleTool 0 "gone.txt" "a" "b" true emptyWorld).1
  = Throw (Engine (notFoundError "gone.txt")).
Proof.
  refine (proj2 (proj1 (not_found_iff_missing "/w" true sampleWritethrough
            LineEndingKind (19 # 20) sampleResolve stripBom detectLineEnding
            normalizeToLF restoreLineEndings sampleEngine noDiff
            0 "gone.txt" "a" "b" true emptyWorld _)) _); reflexivity.
Defined.

(** Spec 8, exact single match: the second line is replaced and written. *)
Lemma success_writes_once_witness :
  exists res w',
    sampleTool 0 "f.txt" "b" "B" false (sampleWorld "f.txt" threeLines)
    = (Return res, w') /\
    resultText res = "Successfully replaced text in f.txt." /\
    trace w' = [EvResolve "f.txt" "/w"; EvExists "/w/f.txt";
                EvRead "/w/f.txt";
                EvWritethrough "/w/f.txt"
                  ("a" +:+ nl +:+ "B" +:+ nl +:+ "c" +:+ nl)].
Proof.
  destruct (sampleTool 0 "f.txt" "b" "B" false (sampleWorld "f.txt" threeLines))
    as [r w'] eqn:Hrun.
  assert (Hr : exists res, r = Return res).
  { apply (f_equal fst) in Hrun. cbn [fst] in Hrun. rewrite <- Hrun.
    vm_compute. eauto. }
  destruct Hr as [res ->]. exists res, w'. split; [reflexivity |].
  destruct (success_writes_once "/w" true sampleWritethrough
              LineEndingKind (19 # 20) sampleResolve stripBom detectLineEnding
              normalizeToLF restoreLineEndings sampleEngine noDiff
              0 "f.txt" "b" "B" false (sampleWorld "f.txt" threeLines) w' res
              Hrun)
    as (raw & c' & k & d & Hraw & Hphase & _ & Hw & Htrace & Htext & _).
  rewrite sampleWorld_lookup in Hraw. injection Hraw as <-.
  assert (Hc : Return (c', k)
               = Return ("a" +:+ nl +:+ "B" +:+ nl +:+ "c" +:+ nl, 1)).
  { rewrite <- Hphase. vm_compute. reflexivity. }
  injection Hc as -> ->.
  unfold sampleWritethrough in Hw. injection Hw as _ <-.
  split; [exact Htext | exact Htrace].
Defined.

Lemma all_mode_exact_unchanged_iff_witness :
  (sampleTool 0 "f.txt" "x=1" "x=1" true (sampleWorld "f.txt" twoAssignments)).1
  = Throw (Engine (noChangesError "f.txt")).
Proof.
  refine (proj2 (all_mode_exact_unchanged_iff "/w" true sampleWritethrough
            LineEndingKind (19 # 20) sampleResolve stripBom detectLineEnding
            normalizeToLF restoreLineEndings sampleEngine noDiff
            0 "f.txt" "x=1" "x=1" (sampleWorld "f.txt" twoAssignments)
            twoAssignments _ _ _) _).
  - reflexivity.
  - apply sampleWorld_lookup.
  - vm_compute. reflexivity.
  - reflexivity.
Defined.

Lemma spliceMatch_keeps_context_witness :
  spliceMatch ("let " +:+ "x" +:+ " = 1")
    {| actualText := "x"; startIndex := 4; confidence := 1 |} "total"
  = "let total = 1".
Proof.
  exact (proj1 (spliceMatch_keeps_context "let " " = 1" "total"
                  {| actualText := "x"; startIndex := 4; confidence := 1 |})
           eq_refl).
Defined.

Lemma all_mode_empty_search_witness :
  replacePhase true (19 # 20) sampleEngine 0 "f.txt" "abc" "" "-" true
  = Return ("a-b-c", 2).
Proof.
  refine (proj1 (proj2 (all_mode_empty_search true (19 # 20) sampleEngine
                          0 "f.txt" "abc" "-")) _).
  simpl. lia.
Defined.

End Edit.

(** ** The image generation tool ([gemini-image.ts], file [unnamed/part_000]) *)

Module GeminiImage.

(** *** Strings *)

(** [s.includes(sub)]. *)
Fixpoint includes (s sub : string) : bool :=
  String.prefix sub s
  || match s with
     | EmptyString => false
     | String _ s' => includes s' sub
     end.

(** The characters [String.prototype.trim] removes, among the code units
    below 256: tab, line feed, vertical tab, form feed, carriage return,
    space and no-break space. *)
Definition isTrimSpace (c : ascii) : bool :=
  let n := nat_of_ascii c in
  ((n =? 9) || (n =? 10) || (n =? 11) || (n =? 12) || (n =? 13)
   || (n =? 32) || (n =? 160))%nat.

(** [s.trimStart()]. *)
Fixpoint trimStart (s : string) : string :=
  match s with
  | EmptyString => EmptyString
  | String c s' => if isTrimSpace c then trimStart s' else s
  end.

(** [s.trimEnd()]. *)
Fixpoint trimEnd (s : string) : string :=
  match s with
  | EmptyString => EmptyString
  | String c s' =>
      let r := trimEnd s' in
      if isTrimSpace c && String.eqb r "" then EmptyString else String c r
  end.

(** [s.trim()]. *)
Definition trim (s : string) : string := trimEnd (trimStart s).

(** A string is truthy when it is present and not empty. *)
Definition truthy (o : option string) : bool :=
  match o with
  | Some s => negb (String.eqb s "")
  | None => false
  end.

(** *** Model names and data URLs *)

(** [InlineImageData]. *)
Record InlineImageData : Type := mkImage {
  data : string;
  mimeType : string
}.

(** [resolveOpenRouterModel]. *)
Definition resolveOpenRouterModel (model : string) : string :=
  if includes model "/" then model else "google/" +:+ model.

(** [toDataUrl]. *)
Definition toDataUrl (image : InlineImageData) : string :=
  "data:" +:+ mimeType image +:+ ";base64," +:+ data image.

(** The longest prefix of [s] without the character [stop], and the rest. *)
Fixpoint spanUntil (stop : ascii) (s : string) : string * string :=
  match s with
  | EmptyString => (EmptyString, EmptyString)
  | String c s' =>
      if Ascii.eqb c stop then (EmptyString, s)
      else let '(a, b) := spanUntil stop s' in (String c a, b)
  end.

(** The characters [.] does not match, among the code units below 256. *)
Definition isLineTerminator (c : ascii) : bool :=
  Ascii.eqb c Edit.LF || Ascii.eqb c Edit.CR.

(** [data.match(/^data:([^;]+);base64,(.+)$/)]: the two groups.  The first
    group cannot hold a semicolon, so it ends at the first one; the second
    is the rest of the string, which must not be empty nor hold a line
    terminator. *)
Definition matchDataUrl (s : string) : option (string * string) :=
  if Str.startsWith s "data:" then
    let '(mime, rest) := spanUntil ";"%char (Str.drop 5 s) in
    if negb (String.eqb mime "") && Str.startsWith rest ";base64," then
      let payload := Str.drop 8 rest in
      if negb (String.eqb payload "")
         && Str.forallb (fun c => negb (isLineTerminator c)) payload
      then Some (mime, payload)
      else None
    else None
  else None.

(** The object [normalizeDataUrl] returns. *)
Record NormalizedData : Type := mkNormalized {
  nd_data : string;
  nd_mimeType : option string
}.

(** [normalizeDataUrl]. *)
Definition normalizeDataUrl (s : string) : NormalizedData :=
  match matchDataUrl s with
  | None => {| nd_data := s; nd_mimeType := None |}
  | Some (mime, payload) =>
      {| nd_data := payload; nd_mimeType := Some mime |}
  end.

(** *** Input images *)

(** [ImageInput]. *)
Record ImageInput : Type := mkInput {
  input_path : option string;
  input_data : option string;
  input_mime_type : option string
}.

(** A loaded image, or the message of the error thrown. *)
Inductive Loaded : Type :=
| Image (image : InlineImageData)
| Failed (message : string).

Definition mimeRequired : string :=
  "mime_type is required when providing raw base64 data.".
Definition dataEmpty : string := "Image data is empty.".
Definition pathOrData : string :=
  "input_images entries must include either path or data.".

Section Loading.

(** [loadImageFromPath] reads the file system and the network branch of
    [loadImageFromUrl] downloads; they are taken as given. *)
Variable loadImageFromPath : string -> string -> Loaded.
Variable fetchImage : string -> Loaded.

(** [resolveInputImage]. *)
Definition resolveInputImage (input : ImageInput) (cwd : string) : Loaded :=
  if truthy (input_path input) then
    loadImageFromPath (default "" (input_path input)) cwd
  else if truthy (input_data input) then
    let normalized := normalizeDataUrl (trim (default "" (input_data input))) in
    let mime :=
      match nd_mimeType normalized with
      | Some m => Some m
      | None => input_mime_type input
      end in
    if negb (truthy mime) then Failed mimeRequired
    else if String.eqb (nd_data normalized) "" then Failed dataEmpty
    else Image {| data := nd_data normalized; mimeType := default "" mime |}
  else Failed pathOrData.

(** [loadImageFromUrl]. *)
Definition loadImageFromUrl (imageUrl : string) : Loaded :=
  if Str.startsWith imageUrl "data:" then
    let normalized := normalizeDataUrl (trim imageUrl) in
    if negb (truthy (nd_mimeType normalized)) then Failed mimeRequired
    else if String.eqb (nd_data normalized) "" then Failed dataEmpty
    else Image {| data := nd_data normalized;
                  mimeType := default "" (nd_mimeType normalized) |}
  else fetchImage imageUrl.

End Loading.

(** *** Responses *)

(** [GeminiInlineData], [GeminiPart], [GeminiCandidate] and the part of
    [GeminiGenerateContentResponse] that [combineParts] reads. *)
Record GeminiInlineData : Type := mkInline {
  inline_data : option string;
  inline_mimeType : option string
}.

Record GeminiPart : Type := mkPart {
  part_text : option string;
  part_inlineData : option GeminiInlineData
}.

Record GeminiContent : Type := mkContent {
  content_parts : option (list GeminiPart)
}.

Record GeminiCandidate : Type := mkCandidate {
  candidate_content : option GeminiContent
}.

Record GeminiResponse : Type := mkResponse {
  candidates : option (list GeminiCandidate)
}.

(** [candidate.content?.parts ?? []]. *)
Definition candidateParts (candidate : GeminiCandidate) : list GeminiPart :=
  match candidate_content candidate with
  | Some c => default [] (content_parts c)
  | None => []
  end.

(** [combineParts]. *)
Definition combineParts (response : GeminiResponse) : list GeminiPart :=
  List.flat_map candidateParts (default [] (candidates response)).

(** The body of the loop of [collectInlineImages] on one part. *)
Definition inlineImageOf (part : GeminiPart) : list InlineImageData :=
  let d := match part_inlineData part with
           | Some i => inline_data i | None => None end in
  let m := match part_inlineData part with
           | Some i => inline_mimeType i | None => None end in
  if negb (truthy d) || negb (truthy m) then []
  else [{| data := default "" d; mimeType := default "" m |}].

(** [collectInlineImages]. *)
Definition collectInlineImages (parts : list GeminiPart)
    : list InlineImageData :=
  List.flat_map inlineImageOf parts.

(** [texts.join("\n").trim()], or nothing when that is empty. *)
Definition combineTexts (texts : list string) : option string :=
  let combined := trim (Edit.join texts Edit.nl) in
  if (0 <? String.length combined)%nat then Some combined else None.

(** The strings among [texts] that are present and not empty:
    [.filter((text): text is string => Boolean(text))]. *)
Definition presentTexts (texts : list (option string)) : list string :=
  List.flat_map
    (fun t => if truthy t then [default "" t] else []) texts.

(** [collectResponseText]. *)
Definition collectResponseText (parts : list GeminiPart) : option string :=
  combineTexts (presentTexts (List.map part_text parts)).

(** [OpenRouterContentPart] and [OpenRouterMessage]. *)
Inductive PartType : Type := TextPart | ImageUrlPart.

Record OpenRouterContentPart : Type := mkORPart {
  or_type : PartType;
  or_text : option string;
  or_image_url : option string
}.

Inductive OpenRouterContent : Type :=
| ContentString (s : string)
| ContentParts (parts : list OpenRouterContentPart).

(** An entry of [message.images]: a string, or an object with an optional
    [image_url]. *)
Inductive OpenRouterImage : Type :=
| ImageString (url : string)
| ImageObject (image_url : option string).

Record OpenRouterMessage : Type := mkMessage {
  message_content : option OpenRouterContent;
  message_images : option (list OpenRouterImage)
}.

Definition isTextPart (p : OpenRouterContentPart) : bool :=
  match or_type p with TextPart => true | ImageUrlPart => false end.

(** [collectOpenRouterResponseText]. *)
Definition collectOpenRouterResponseText (message : option OpenRouterMessage)
    : option string :=
  match message with
  | None => None
  | Some msg =>
      match message_content msg with
      | Some (ContentString s) =>
          let trimmed := trim s in
          if (0 <? String.length trimmed)%nat then Some trimmed else None
      | Some (ContentParts parts) =>
          combineTexts
            (presentTexts (List.map or_text (List.filter isTextPart parts)))
      | None => None
      end
  end.

(** [extractOpenRouterImageUrls]. *)
Definition extractOpenRouterImageUrls (message : option OpenRouterMessage)
    : list string :=
  match message with
  | None => []
  | Some msg =>
      List.flat_map
        (fun image =>
           match image with
           | ImageString url => [url]
           | ImageObject u => if truthy u then [default "" u] else []
           end)
        (default [] (message_images msg))
      ++ match message_content msg with
         | Some (ContentParts parts) =>
             List.flat_map
               (fun p =>
                  if negb (isTextPart p) && truthy (or_image_url p)
                  then [default "" (or_image_url p)] else [])
               parts
         | _ => []
         end
  end.

(** [buildResponseSummary]. *)
Definition buildResponseSummary (model : string) (imageCount : Z)
    (responseText : option string) : string :=
  let lines := ["Model: " +:+ model;
                "Images: " +:+ Edit.decimal imageCount] in
  Edit.join
    (if truthy responseText
     then lines ++ [""; trim (default "" responseText)]
     else lines)
    Edit.nl.

(** *** Properties *)

Lemma includes_unfold s sub :
  includes s sub
  = String.prefix sub s
    || match s with
       | EmptyString => false
       | String _ s' => includes s' sub
       end.
Proof. destruct s; reflexivity. Qed.

Lemma includes_app a sub b : includes (a +:+ sub +:+ b) sub = true.
Proof.
  induction a as [|c a IH].
  - rewrite Str.app_nil_l, includes_unfold, Str.prefix_app. reflexivity.
  - rewrite Str.app_cons, includes_unfold, IH. apply orb_true_r.
Qed.

(** [resolveOpenRouterModel] gives a name with a provider prefix and leaves
    such a name as it is: resolving twice is resolving once. *)
Theorem resolveOpenRouterModel_idempotent (model : string) :
  includes (resolveOpenRouterModel model) "/" = true /\
  resolveOpenRouterModel (resolveOpenRouterModel model)
  = resolveOpenRouterModel model.
Proof.
  assert (H : includes (resolveOpenRouterModel model) "/" = true).
  { unfold resolveOpenRouterModel.
    destruct (includes model "/") eqn:Hm; [exact Hm |].
    change ("google/" +:+ model) with ("google" +:+ "/" +:+ model).
    apply includes_app. }
  split; [exact H |].
  unfold resolveOpenRouterModel at 1. now rewrite H.
Qed.

Lemma spanUntil_spec stop s :
  s = (spanUntil stop s).1 +:+ (spanUntil stop s).2 /\
  Str.forallb (fun c => negb (Ascii.eqb c stop)) (spanUntil stop s).1 = true.
Proof.
  induction s as [|c s [IH1 IH2]]; [split; reflexivity |].
  cbn [spanUntil]. destruct (Ascii.eqb c stop) eqn:Hc; [split; reflexivity |].
  destruct (spanUntil stop s) as [a b]. cbn [fst snd] in *.
  rewrite Str.app_cons, <- IH1. cbn [Str.forallb]. rewrite Hc, IH2.
  split; reflexivity.
Qed.

Lemma spanUntil_app stop a b :
  Str.forallb (fun c => negb (Ascii.eqb c stop)) a = true ->
  spanUntil stop (a +:+ String stop b) = (a, String stop b).
Proof.
  induction a as [|c a IH]; intros Ha.
  - rewrite Str.app_nil_l. cbn [spanUntil]. now rewrite Ascii.eqb_refl.
  - cbn [Str.forallb] in Ha. apply andb_true_iff in Ha as [Hc Ha].
    rewrite Str.app_cons. cbn [spanUntil].
    apply negb_true_iff in Hc. rewrite Hc, (IH Ha). reflexivity.
Qed.

Lemma eqb_empty_false s : s <> EmptyString -> String.eqb s "" = false.
Proof. intros H. now apply String.eqb_neq. Qed.

(** A data URL made by [toDataUrl] is taken apart again by
    [normalizeDataUrl], for a MIME type that is not empty and holds no
    semicolon and a payload that is not empty and holds no line
    terminator. *)
Theorem normalizeDataUrl_toDataUrl (image : InlineImageData) :
  mimeType image <> EmptyString ->
  Str.forallb (fun c => negb (Ascii.eqb c ";"%char)) (mimeType image) = true ->
  data image <> EmptyString ->
  Str.forallb (fun c => negb (isLineTerminator c)) (data image) = true ->
  normalizeDataUrl (toDataUrl image)
  = {| nd_data := data image; nd_mimeType := Some (mimeType image) |}.
Proof.
  intros Hm Hsemi Hd Hlt. unfold normalizeDataUrl, matchDataUrl, toDataUrl.
  set (mime := mimeType image) in *. set (payload := data image) in *.
  replace (Str.startsWith ("data:" +:+ mime +:+ ";base64," +:+ payload) "data:")
    with true by (symmetry; apply Str.prefix_app).
  change (Str.drop 5 ("data:" +:+ mime +:+ ";base64," +:+ payload))
    with (mime +:+ String ";"%char ("base64," +:+ payload)).
  rewrite (spanUntil_app _ _ _ Hsemi).
  rewrite (eqb_empty_false _ Hm). cbn [negb andb].
  replace (Str.startsWith (String ";"%char ("base64," +:+ payload)) ";base64,")
    with true by (symmetry; apply (Str.prefix_app ";base64,")).
  change (Str.drop 8 (String ";"%char ("base64," +:+ payload))) with payload.
  now rewrite (eqb_empty_false _ Hd), Hlt.
Qed.

Lemma normalizeDataUrl_toDataUrl_witness :
  normalizeDataUrl (toDataUrl {| data := "iVBORw0KGgo="; mimeType := "image/png" |})
  = {| nd_data := "iVBORw0KGgo="; nd_mimeType := Some "image/png" |}.
Proof.
  apply normalizeDataUrl_toDataUrl; first [discriminate | reflexivity].
Defined.

Lemma matchDataUrl_Some s mime payload :
  matchDataUrl s = Some (mime, payload) ->
  s = "data:" +:+ mime +:+ ";base64," +:+ payload /\
  mime <> EmptyString /\ payload <> EmptyString /\
  Str.forallb (fun c => negb (Ascii.eqb c ";"%char)) mime = true /\
  Str.forallb (fun c => negb (isLineTerminator c)) payload = true.
Proof.
  unfold matchDataUrl, Str.startsWith.
  destruct (String.prefix "data:" s) eqn:Hp; [| discriminate].
  pose proof (spanUntil_spec ";"%char (Str.drop 5 s)) as [Hsplit Hsemi].
  destruct (spanUntil ";"%char (Str.drop 5 s)) as [m rest].
  cbn [fst snd] in *.
  destruct (String.eqb_spec m "") as [|Hm]; [discriminate |]. cbn [negb andb].
  destruct (String.prefix ";base64," rest) eqn:Hb; [| discriminate].
  destruct (String.eqb_spec (Str.drop 8 rest) "") as [|Hd]; [discriminate |].
  cbn [negb andb].
  destruct (Str.forallb _ (Str.drop 8 rest)) eqn:Hlt; [| discriminate].
  intros [= <- <-]. repeat split; try assumption.
  rewrite (Str.prefix_split _ _ Hp). f_equal.
  change (String.length "data:") with 5%nat. rewrite Hsplit. f_equal.
  apply (Str.prefix_split _ _ Hb).
Qed.

Lemma normalizeDataUrl_parts (s : string) :
  match nd_mimeType (normalizeDataUrl s) with
  | Some mime =>
      toDataUrl {| data := nd_data (normalizeDataUrl s); mimeType := mime |} = s
      /\ mime <> EmptyString
      /\ nd_data (normalizeDataUrl s) <> EmptyString
  | None => nd_data (normalizeDataUrl s) = s
  end.
Proof.
  unfold normalizeDataUrl.
  destruct (matchDataUrl s) as [[mime payload]|] eqn:Hm; [| reflexivity].
  cbn [nd_mimeType nd_data].
  apply matchDataUrl_Some in Hm as (Hs & Hmime & Hp & _).
  unfold toDataUrl. cbn [data mimeType]. now rewrite <- Hs.
Qed.

(** What [normalizeDataUrl] returns determines its argument: with a MIME
    type, the argument is the data URL of the two parts, neither of which is
    empty, and the MIME type holds no semicolon and the data no line
    terminator; without one, the data is the argument itself. *)
Theorem normalizeDataUrl_inverse (s : string) :
  match nd_mimeType (normalizeDataUrl s) with
  | Some mime =>
      toDataUrl {| data := nd_data (normalizeDataUrl s); mimeType := mime |} = s
      /\ mime <> EmptyString
      /\ nd_data (normalizeDataUrl s) <> EmptyString
      /\ Str.forallb (fun c => negb (Ascii.eqb c ";"%char)) mime = true
      /\ Str.forallb (fun c => negb (isLineTerminator c))
           (nd_data (normalizeDataUrl s)) = true
  | None => nd_data (normalizeDataUrl s) = s
  end.
Proof.
  pose proof (normalizeDataUrl_parts s) as Hparts. revert Hparts.
  unfold normalizeDataUrl.
  destruct (matchDataUrl s) as [[mime payload]|] eqn:Hm; [| trivial].
  cbn [nd_mimeType nd_data]. intros (Hs & Hmime & Hp).
  apply matchDataUrl_Some in Hm as (_ & _ & _ & Hsemi & Hlt).
  repeat split; assumption.
Qed.

(** *** [trim] *)

Definition headNotSpace (s : string) : bool :=
  match s with
  | EmptyString => true
  | String c _ => negb (isTrimSpace c)
  end.

Lemma trimStart_head s : headNotSpace (trimStart s) = true.
Proof.
  induction s as [|c s IH]; [reflexivity |].
  cbn [trimStart]. destruct (isTrimSpace c) eqn:Hc; [exact IH |].
  cbn [headNotSpace]. now rewrite Hc.
Qed.

Lemma trimStart_fixed s : headNotSpace s = true -> trimStart s = s.
Proof.
  destruct s as [|c s]; [reflexivity |]. cbn [headNotSpace trimStart].
  intros H. apply negb_true_iff in H. now rewrite H.
Qed.

Lemma trimEnd_head s : headNotSpace s = true -> headNotSpace (trimEnd s) = true.
Proof.
  destruct s as [|c s]; [reflexivity |]. cbn [headNotSpace trimEnd].
  intros H. apply negb_true_iff in H. rewrite H. cbn [andb headNotSpace].
  now rewrite H.
Qed.

Lemma trimEnd_idempotent s : trimEnd (trimEnd s) = trimEnd s.
Proof.
  induction s as [|c s IH]; [reflexivity |].
  cbn [trimEnd]. cbv zeta.
  destruct (isTrimSpace c && String.eqb (trimEnd s) "") eqn:Hc; [reflexivity |].
  cbn [trimEnd]. cbv zeta. now rewrite IH, Hc.
Qed.

Lemma trim_idempotent s : trim (trim s) = trim s.
Proof.
  unfold trim.
  rewrite (trimStart_fixed (trimEnd (trimStart s)))
    by (apply trimEnd_head, trimStart_head).
  apply trimEnd_idempotent.
Qed.

Lemma combineTexts_Some texts r :
  combineTexts texts = Some r -> r <> EmptyString /\ trim r = r.
Proof.
  unfold combineTexts. cbv zeta.
  destruct (Nat.ltb_spec 0 (String.length (trim (Edit.join texts Edit.nl))))
    as [Hlen|]; [| discriminate].
  intros [= <-]. split; [| apply trim_idempotent].
  intros E. rewrite E in Hlen. simpl in Hlen. lia.
Qed.

(** The response text collected from a Gemini or an OpenRouter answer is
    either absent or a string that is not empty and has no white space at
    either end. *)
Theorem response_text_trimmed
    (parts : list GeminiPart) (message : option OpenRouterMessage) (r : string) :
  (collectResponseText parts = Some r -> r <> EmptyString /\ trim r = r) /\
  (collectOpenRouterResponseText message = Some r ->
   r <> EmptyString /\ trim r = r).
Proof.
  split; [apply combineTexts_Some |].
  unfold collectOpenRouterResponseText.
  destruct message as [msg|]; [| discriminate].
  destruct (message_content msg) as [[s|ps]|]; [| apply combineTexts_Some
                                                 | discriminate].
  cbv zeta. destruct (Nat.ltb_spec 0 (String.length (trim s))) as [Hlen|];
    [| discriminate].
  intros [= <-]. split; [| apply trim_idempotent].
  intros E. rewrite E in Hlen. simpl in Hlen. lia.
Qed.

Lemma response_text_trimmed_witness :
  collectResponseText
    [ {| part_text := Some "  A red fox"; part_inlineData := None |};
      {| part_text := Some ""; part_inlineData := None |};
      {| part_text := None; part_inlineData := None |};
      {| part_text := Some "at dusk. "; part_inlineData := None |} ]
  = Some ("A red fox" +:+ Edit.nl +:+ "at dusk.") /\
  trim ("A red fox" +:+ Edit.nl +:+ "at dusk.")
  = "A red fox" +:+ Edit.nl +:+ "at dusk.".
Proof.
  assert (H : collectResponseText
    [ {| part_text := Some "  A red fox"; part_inlineData := None |};
      {| part_text := Some ""; part_inlineData := None |};
      {| part_text := None; part_inlineData := None |};
      {| part_text := Some "at dusk. "; part_inlineData := None |} ]
    = Some ("A red fox" +:+ Edit.nl +:+ "at dusk.")) by reflexivity.
  split; [exact H |].
  exact (proj2 (proj1 (response_text_trimmed _ None _) H)).
Defined.

(** *** Loading images *)

Lemma truthy_Some o : truthy o = true -> exists s, o = Some s /\ s <> EmptyString.
Proof.
  destruct o as [s|]; [| discriminate]. cbn [truthy]. intros H.
  exists s. split; [reflexivity |].
  apply negb_true_iff in H. now apply String.eqb_neq.
Qed.

(** An input image given by its data, not by a path: a loaded image has
    data and a MIME type that are not empty; it is either the two parts of
    the trimmed data URL, whatever MIME type was declared beside it, or the
    trimmed raw data with the declared MIME type.  The call fails with the
    path-or-data error exactly when no data is given either. *)
Theorem resolveInputImage_from_data
    (loadImageFromPath : string -> string -> Loaded)
    (input : ImageInput) (cwd : string) :
  truthy (input_path input) = false ->
  (forall image,
     resolveInputImage loadImageFromPath input cwd = Image image ->
     exists d,
       input_data input = Some d /\
       data image <> EmptyString /\ mimeType image <> EmptyString /\
       (toDataUrl image = trim d \/
        (data image = trim d /\
         input_mime_type input = Some (mimeType image)))) /\
  (resolveInputImage loadImageFromPath input cwd = Failed pathOrData
   <-> truthy (input_data input) = false).
Proof.
  intros Hpath. unfold resolveInputImage. rewrite Hpath. cbv zeta.
  destruct (truthy (input_data input)) eqn:Hdata.
  2:{ split; [discriminate | tauto]. }
  apply truthy_Some in Hdata as (d & Hd & Hne). rewrite Hd.
  cbn [from_option]. unfold id.
  pose proof (normalizeDataUrl_parts (trim d)) as Hinv.
  destruct (nd_mimeType (normalizeDataUrl (trim d))) as [m|] eqn:Hm.
  - destruct Hinv as (Hurl & Hmne & Hdne).
    cbn [truthy]. rewrite (eqb_empty_false _ Hmne), (eqb_empty_false _ Hdne).
    cbn [negb default]. split; [| split; discriminate].
    intros image [= <-]. exists d. cbn [data mimeType].
    repeat split; try assumption. now left.
  - destruct (truthy (input_mime_type input)) eqn:Hmt; cbn [negb].
    + apply truthy_Some in Hmt as (m & Hmt & Hmne). rewrite Hmt.
      cbn [default].
      destruct (String.eqb_spec (nd_data (normalizeDataUrl (trim d))) "")
        as [E|E]; (split; [| split; discriminate]); [discriminate |].
      intros image [= <-]. exists d. cbn [data mimeType].
      repeat split; try assumption. right. now split.
    + split; [discriminate | split; discriminate].
Qed.

Lemma resolveInputImage_from_data_witness :
  resolveInputImage (fun _ _ => Failed "unused")
    {| input_path := None;
       input_data := Some " data:image/png;base64,iVBORw0KGgo= ";
       input_mime_type := Some "image/jpeg" |} "/w"
  = Image {| data := "iVBORw0KGgo="; mimeType := "image/png" |} /\
  toDataUrl {| data := "iVBORw0KGgo="; mimeType := "image/png" |}
  = trim " data:image/png;base64,iVBORw0KGgo= ".
Proof.
  assert (H : resolveInputImage (fun _ _ => Failed "unused")
    {| input_path := None;
       input_data := Some " data:image/png;base64,iVBORw0KGgo= ";
       input_mime_type := Some "image/jpeg" |} "/w"
    = Image {| data := "iVBORw0KGgo="; mimeType := "image/png" |})
    by reflexivity.
  split; [exact H |].
  destruct (proj1 (resolveInputImage_from_data (fun _ _ => Failed "unused")
              {| input_path := None;
                 input_data := Some " data:image/png;base64,iVBORw0KGgo= ";
                 input_mime_type := Some "image/jpeg" |}
              "/w" eq_refl) _ H) as (d & [= <-] & _ & _ & [Hurl|[_ Hm]]).
  - exact Hurl.
  - discriminate Hm.
Defined.

(** A [data:] URL is loaded without download: the loaded image, written as
    a data URL again, is the trimmed URL; and the only failure is the
    MIME-type error, thrown when the URL has not the base64 form. *)
Theorem loadImageFromUrl_data_url
    (fetchImage : string -> Loaded) (imageUrl : string) :
  Str.startsWith imageUrl "data:" = true ->
  (forall image,
     loadImageFromUrl fetchImage imageUrl = Image image ->
     toDataUrl image = trim imageUrl) /\
  (forall message,
     loadImageFromUrl fetchImage imageUrl = Failed message ->
     message = mimeRequired /\ matchDataUrl (trim imageUrl) = None).
Proof.
  intros Hstart. unfold loadImageFromUrl. rewrite Hstart. cbv zeta.
  pose proof (normalizeDataUrl_parts (trim imageUrl)) as Hinv.
  unfold normalizeDataUrl in *.
  destruct (matchDataUrl (trim imageUrl)) as [[m p]|] eqn:Hmatch;
    cbn [nd_mimeType nd_data truthy negb default] in *.
  - destruct Hinv as (Hurl & Hmne & Hdne).
    rewrite (eqb_empty_false _ Hmne), (eqb_empty_false _ Hdne). cbn [negb].
    split; [| discriminate]. now intros image [= <-].
  - split; [discriminate |]. intros message [= <-]. now split.
Qed.

Lemma loadImageFromUrl_data_url_witness :
  loadImageFromUrl (fun _ => Failed "offline")
    "data:image/webp;base64,UklGRg=="
  = Image {| data := "UklGRg=="; mimeType := "image/webp" |} /\
  toDataUrl {| data := "UklGRg=="; mimeType := "image/webp" |}
  = trim "data:image/webp;base64,UklGRg==".
Proof.
  split; [reflexivity |].
  exact (proj1 (loadImageFromUrl_data_url (fun _ => Failed "offline")
                  "data:image/webp;base64,UklGRg==" eq_refl) _ eq_refl).
Defined.

(** *** Collecting the images of a response *)

Lemma flat_map_flat_map {A B C} (f : B -> list C) (g : A -> list B) l :
  List.flat_map f (List.flat_map g l)
  = List.flat_map (fun x => List.flat_map f (g x)) l.
Proof.
  induction l as [|x l IH]; [reflexivity |].
  cbn [List.flat_map]. now rewrite List.flat_map_app, IH.
Qed.

(** The images collected from a response: each has data and a MIME type
    that are not empty; there are at most as many as parts; and collecting
    from the combined parts of all candidates is collecting from each
    candidate in turn. *)
Theorem collectInlineImages_sound
    (parts : list GeminiPart) (response : GeminiResponse) :
  List.Forall
    (fun image => data image <> EmptyString /\ mimeType image <> EmptyString)
    (collectInlineImages parts) /\
  (List.length (collectInlineImages parts) <= List.length parts)%nat /\
  collectInlineImages (combineParts response)
  = List.flat_map (fun c => collectInlineImages (candidateParts c))
      (default [] (candidates response)).
Proof.
  split; [| split].
  - unfold collectInlineImages. apply List.Forall_flat_map.
    apply List.Forall_forall. intros part _. unfold inlineImageOf. cbv zeta.
    set (d := match part_inlineData part with
              | Some i => inline_data i | None => None end).
    set (m := match part_inlineData part with
              | Some i => inline_mimeType i | None => None end).
    destruct (truthy d) eqn:Hd; [| constructor].
    destruct (truthy m) eqn:Hm; [| constructor].
    apply truthy_Some in Hd as (d' & -> & Hd').
    apply truthy_Some in Hm as (m' & -> & Hm').
    cbn [negb orb default]. constructor; [now split | constructor].
  - unfold collectInlineImages.
    induction parts as [|part parts IH]; [reflexivity |].
    cbn [List.flat_map List.length]. rewrite List.length_app.
    assert (List.length (inlineImageOf part) <= 1)%nat.
    { unfold inlineImageOf. cbv zeta.
      destruct (negb _ || negb _); simpl; lia. }
    lia.
  - unfold collectInlineImages, combineParts. apply flat_map_flat_map.
Qed.

End GeminiImage.
